(** * Yozakura motor control: [rpi/motor.py]

    A shallow embedding of the [Motor] class of the Yozakura robot
    (Kyoto University Mechatronics Laboratory) together with the
    properties of its drive, fault and lifecycle operations.

    Conventions of the embedding.
    - Python numbers ([speed], [start_input], [max_speed], duty cycles) are
      exact rationals [Q]: the comparisons, [abs], [round(x, 4)] (round half
      to even at four decimals) and [int(x)] (truncation toward zero) are
      the Python ones, while the binary64 rounding error of [+], [-] and [*]
      is abstracted away.  Equalities between numbers are stated with [==].
      Rationals never overflow, whereas in binary64 a huge request makes
      [abs(scaled) * 31] infinite and [int] raise [OverflowError]; what is
      stated about a normal return of [drive] through a backend is
      therefore stated for requests in the documented range [-1, 1], where
      no operation of the code overflows.
    - Instances of [Motor] live in an object store ([heap]); a reference is
      the index of the object, and the class attributes [Motor.motors] and
      [Motor._count] are fields of the program state.
    - A method is a computation in a state-and-exception monad: an
      exception keeps the state reached when it was raised, as in Python.
    - [RPi.GPIO], the serial port, [logging] and [time.sleep] are external;
      they are modelled by the part of their state that the class drives. *)

From Stdlib Require Import ZArith QArith Qround Qabs Lia Lqa String.
From stdpp Require Import base option list gmap strings pretty.

Local Open Scope Z_scope.

(** ** Python numbers *)

Module Py.

(** [round(x)] to an integer: nearest, ties to the even neighbour. *)
Definition round_half_even (x : Q) : Z :=
  let f := Qfloor x in
  match Qcompare (x - inject_Z f) (1 # 2) with
  | Lt => f
  | Gt => f + 1
  | Eq => if Z.even f then f else f + 1
  end.

(** [round(x, ndigits)] for a non-negative number of digits. *)
Definition round (x : Q) (ndigits : nat) : Q :=
  let p := 10 ^ Z.of_nat ndigits in
  (inject_Z (round_half_even (x * inject_Z p)) / inject_Z p)%Q.

(** [int(x)]: truncation toward zero. *)
Definition int (x : Q) : Z := Z.quot (Qnum x) (Z.pos (Qden x)).

(** [abs(x)]. *)
Definition abs (x : Q) : Q := Qabs x.

(** [a <= b], [a < b], [a > b] and the chained [a <= b <= c]. *)
Definition le (a b : Q) : bool := Qle_bool a b.
Definition lt (a b : Q) : bool := negb (Qle_bool b a).
Definition gt (a b : Q) : bool := lt b a.
Definition le_le (a b c : Q) : bool := le a b && le b c.

End Py.

(** ** Exceptions, references and the external world *)

(** Identity of a [Motor] instance: its index in the object store. *)
Definition ref := nat.

(** Identity of a [Serial] port object handed to [enable_serial]. *)
Definition Serial := nat.

Inductive exn : Type :=
| TooManyMotorsError
| InvalidArgError (msg : string)
| NoDriversError (motor : ref)
| ValueError (msg : string)        (* [list.remove(x)]: x not in list *)
| AttributeError (attr : string)   (* attribute read before it is set *)
| ReferenceError.                  (* no object behind a reference *)

Inductive outcome (A : Type) : Type :=
| Return (a : A)
| Raise (e : exn).
Arguments Return {A} a.
Arguments Raise {A} e.

(** [logging]: one record per call, oldest first. *)
Inductive loglevel : Type := DEBUG | INFO | WARNING | ERROR.
Definition LogRecord : Type := loglevel * string * string.

(** [RPi.GPIO]: channel configuration, the levels driven on outputs, the
    levels present on inputs, the edge callbacks, the software PWM objects
    and the number of [gpio.cleanup()] calls. *)
Definition LOW : bool := false.
Definition HIGH : bool := true.

Inductive direction : Type := IN_PUD_DOWN | OUT.

Record PWM : Type := mkPWM {
  pwm_channel : Z;
  pwm_frequency : Q;
  duty_cycle : option Q      (* [None] until [start] *)
}.

Record GPIO : Type := mkGPIO {
  channels : gmap Z direction;
  out_level : gmap Z bool;
  in_level : gmap Z bool;
  callbacks : list (Z * ref);   (* rising edge on a channel calls [_catch_fault] of the motor *)
  pwms : list PWM;
  cleanups : nat
}.

(** ** The class *)

Record Motor : Type := mkMotor {
  name : string;
  motor_id : Z;
  pin_fault_1 : Z;
  pin_fault_2 : Z;
  pin_reset : Z;
  start_input : Q;
  max_speed : Q;
  has_serial : bool;
  has_pwm : bool;
  connection : option Serial;
  pin_pwm : option Z;
  pin_dir : option Z;
  _pwm : option nat           (* index of the PWM object in [pwms] *)
}.

Record World : Type := mkWorld {
  heap : list Motor;            (* the objects, by reference *)
  motors : list ref;            (* [Motor.motors] *)
  _count : Z;                   (* [Motor._count] *)
  gpio : GPIO;
  wire : list (Serial * Z);     (* bytes written to serial ports, oldest first *)
  log : list LogRecord;
  slept : Q                     (* seconds spent in [sleep] *)
}.

(** State just after the class body has run. *)
Definition init_gpio : GPIO :=
  {| channels := ∅; out_level := ∅; in_level := ∅;
     callbacks := []; pwms := []; cleanups := 0%nat |}.

Definition init : World :=
  {| heap := []; motors := []; _count := 0; gpio := init_gpio;
     wire := []; log := []; slept := 0%Q |}.

(** Field updates. *)
Definition with_heap (f : list Motor → list Motor) (w : World) : World :=
  {| heap := f (heap w); motors := motors w; _count := _count w;
     gpio := gpio w; wire := wire w; log := log w; slept := slept w |}.
Definition with_motors (f : list ref → list ref) (w : World) : World :=
  {| heap := heap w; motors := f (motors w); _count := _count w;
     gpio := gpio w; wire := wire w; log := log w; slept := slept w |}.
Definition with_count (f : Z → Z) (w : World) : World :=
  {| heap := heap w; motors := motors w; _count := f (_count w);
     gpio := gpio w; wire := wire w; log := log w; slept := slept w |}.
Definition with_gpio (f : GPIO → GPIO) (w : World) : World :=
  {| heap := heap w; motors := motors w; _count := _count w;
     gpio := f (gpio w); wire := wire w; log := log w; slept := slept w |}.
Definition with_wire (f : list (Serial * Z) → list (Serial * Z)) (w : World) : World :=
  {| heap := heap w; motors := motors w; _count := _count w;
     gpio := gpio w; wire := f (wire w); log := log w; slept := slept w |}.
Definition with_log (f : list LogRecord → list LogRecord) (w : World) : World :=
  {| heap := heap w; motors := motors w; _count := _count w;
     gpio := gpio w; wire := wire w; log := f (log w); slept := slept w |}.
Definition with_slept (f : Q → Q) (w : World) : World :=
  {| heap := heap w; motors := motors w; _count := _count w;
     gpio := gpio w; wire := wire w; log := log w; slept := f (slept w) |}.

Definition set_has_serial (b : bool) (m : Motor) : Motor :=
  mkMotor (name m) (motor_id m) (pin_fault_1 m) (pin_fault_2 m) (pin_reset m)
    (start_input m) (max_speed m) b (has_pwm m)
    (connection m) (pin_pwm m) (pin_dir m) (_pwm m).
Definition set_has_pwm (b : bool) (m : Motor) : Motor :=
  mkMotor (name m) (motor_id m) (pin_fault_1 m) (pin_fault_2 m) (pin_reset m)
    (start_input m) (max_speed m) (has_serial m) b
    (connection m) (pin_pwm m) (pin_dir m) (_pwm m).
Definition set_connection (c : Serial) (m : Motor) : Motor :=
  mkMotor (name m) (motor_id m) (pin_fault_1 m) (pin_fault_2 m) (pin_reset m)
    (start_input m) (max_speed m) (has_serial m) (has_pwm m)
    (Some c) (pin_pwm m) (pin_dir m) (_pwm m).
Definition set_pin_pwm (p : Z) (m : Motor) : Motor :=
  mkMotor (name m) (motor_id m) (pin_fault_1 m) (pin_fault_2 m) (pin_reset m)
    (start_input m) (max_speed m) (has_serial m) (has_pwm m)
    (connection m) (Some p) (pin_dir m) (_pwm m).
Definition set_pin_dir (p : Z) (m : Motor) : Motor :=
  mkMotor (name m) (motor_id m) (pin_fault_1 m) (pin_fault_2 m) (pin_reset m)
    (start_input m) (max_speed m) (has_serial m) (has_pwm m)
    (connection m) (pin_pwm m) (Some p) (_pwm m).
Definition set__pwm (h : nat) (m : Motor) : Motor :=
  mkMotor (name m) (motor_id m) (pin_fault_1 m) (pin_fault_2 m) (pin_reset m)
    (start_input m) (max_speed m) (has_serial m) (has_pwm m)
    (connection m) (pin_pwm m) (pin_dir m) (Some h).

(** ** State and exceptions *)

Definition M (A : Type) : Type := World → outcome A * World.

Definition ret {A} (a : A) : M A := λ w, (Return a, w).
Definition raise {A} (e : exn) : M A := λ w, (Raise e, w).
Definition bind {A B} (c : M A) (k : A → M B) : M B :=
  λ w, match c w with
       | (Return a, w') => k a w'
       | (Raise e, w') => (Raise e, w')
       end.
Definition gets {A} (f : World → A) : M A := λ w, (Return (f w), w).
Definition modify (f : World → World) : M unit := λ w, (Return tt, f w).

Declare Scope py_scope.
Delimit Scope py_scope with py.
Notation "x <- c ;; k" := (bind c (λ x, k))
  (at level 100, c at next level, right associativity) : py_scope.
Notation "c ;; k" := (bind c (λ _, k))
  (at level 100, right associativity) : py_scope.
Local Open Scope py_scope.

(** Attribute access on an instance. *)
Definition getattr {A} (self : ref) (field : Motor → A) : M A :=
  λ w, match heap w !! self with
       | Some m => (Return (field m), w)
       | None => (Raise ReferenceError, w)
       end.
Definition getattr_opt {A} (self : ref) (attr : string) (field : Motor → option A) : M A :=
  o <- getattr self field ;;
  match o with
  | Some a => ret a
  | None => raise (AttributeError attr)
  end.
Definition setattr (self : ref) (f : Motor → Motor) : M unit :=
  λ w, match heap w !! self with
       | Some m => (Return tt, with_heap (λ h, <[self := f m]> h) w)
       | None => (Raise ReferenceError, w)
       end.

(** [logging]. *)
Definition logging (l : loglevel) (logger msg : string) : M unit :=
  modify (with_log (λ rs, rs ++ [(l, logger, msg)])).
Definition self_logger (l : loglevel) (self : ref) (msg : string) : M unit :=
  n <- getattr self name ;; logging l n msg.

(** [time.sleep]. *)
Definition sleep (seconds : Q) : M unit :=
  modify (with_slept (λ t, (t + seconds)%Q)).

(** [RPi.GPIO]. *)
Module gpio.

Definition setup (channel : Z) (d : direction) : M unit :=
  modify (with_gpio (λ g,
    mkGPIO (<[channel := d]> (channels g)) (out_level g) (in_level g)
           (callbacks g) (pwms g) (cleanups g))).

Definition add_event_detect (channel : Z) (callback : ref) : M unit :=
  modify (with_gpio (λ g,
    mkGPIO (channels g) (out_level g) (in_level g)
           (callbacks g ++ [(channel, callback)]) (pwms g) (cleanups g))).

Definition output (channel : Z) (value : bool) : M unit :=
  modify (with_gpio (λ g,
    mkGPIO (channels g) (<[channel := value]> (out_level g)) (in_level g)
           (callbacks g) (pwms g) (cleanups g))).

(** An input with its pull-down reads low unless something drives it. *)
Definition input (channel : Z) : M bool :=
  gets (λ w, default LOW (in_level (gpio w) !! channel)).

(** [gpio.PWM(channel, frequency)]: a new PWM object, not yet started. *)
Definition new_PWM (channel : Z) (frequency : Q) : M nat :=
  h <- gets (λ w, length (pwms (gpio w))) ;;
  modify (with_gpio (λ g,
    mkGPIO (channels g) (out_level g) (in_level g) (callbacks g)
           (pwms g ++ [mkPWM channel frequency None]) (cleanups g))) ;;
  ret h.

(** [pwm.start(dc)] and [pwm.ChangeDutyCycle(dc)]. *)
Definition set_duty (h : nat) (dc : Q) : M unit :=
  modify (with_gpio (λ g,
    mkGPIO (channels g) (out_level g) (in_level g) (callbacks g)
           (alter (λ p, mkPWM (pwm_channel p) (pwm_frequency p) (Some dc)) h (pwms g))
           (cleanups g))).
Definition start := set_duty.
Definition ChangeDutyCycle := set_duty.

(** [gpio.cleanup()]: every channel goes back to an unconfigured input and
    the edge callbacks are removed. *)
Definition cleanup : M unit :=
  modify (with_gpio (λ g,
    mkGPIO ∅ ∅ (in_level g) [] (pwms g) (S (cleanups g)))).

End gpio.

(** [ser.write(bytes([b]))]. *)
Definition serial_write (ser : Serial) (b : Z) : M unit :=
  modify (with_wire (λ bs, bs ++ [(ser, b)])).

(** Modelled from the spec: [rpi.bitfields.MotorPacket] is not among the
    sources.  The packet is one byte, [motor_id] in bits 7..6, the sign in
    bit 5 and the magnitude in bits 4..0; a value stored in a field keeps
    the low bits that fit the field. *)
Module MotorPacket.

Record t : Type := mk { motor_id : Z; negative : Z; speed : Z }.

Definition new : t := mk 0 0 0.
Definition set_motor_id (v : Z) (p : t) : t := mk (Z.land v 3) (negative p) (speed p).
Definition set_negative (v : Z) (p : t) : t := mk (motor_id p) (Z.land v 1) (speed p).
Definition set_speed (v : Z) (p : t) : t := mk (motor_id p) (negative p) (Z.land v 31).

Definition as_byte (p : t) : Z :=
  Z.lor (Z.shiftl (motor_id p) 6) (Z.lor (Z.shiftl (negative p) 5) (speed p)).

End MotorPacket.

(** ** Methods of [Motor] *)

(** Defaults of the optional parameters. *)
Definition default_start_input : Q := 0.
Definition default_max_speed : Q := 1.
Definition default_frequency : Q := 28000.

Definition reset_driver (self : ref) : M unit :=
  pin <- getattr self pin_reset ;;
  gpio.output pin LOW ;;
  sleep (1 # 10) ;;
  gpio.output pin HIGH.

(** The constructor.  The two checks and the capacity guard come before
    any effect; the new object enters the store when its attributes are
    assigned, so that the edge callbacks can refer to it, and its reference
    is the index it gets there.  [start_input] and [max_speed] are passed
    explicitly ([default_start_input], [default_max_speed] when omitted). *)
Definition __init__ (name : string) (fault_1 fault_2 reset : Z)
    (start_input max_speed : Q) : M ref :=
  count <- gets _count ;;
  if count =? 4 then raise TooManyMotorsError else
  if negb (Py.le_le 0 start_input 1) then
    raise (InvalidArgError "start_input should be between 0 and 1.") else
  if negb (Py.le_le 0 max_speed 1) then
    raise (InvalidArgError "max_speed should be between 0 and 1.") else
  self <- gets (λ w, length (heap w)) ;;
  modify (with_heap (λ h, h ++
    [mkMotor name count fault_1 fault_2 reset start_input max_speed
             false false None None None None])) ;;
  logging DEBUG name "Initializing motor" ;;
  logging DEBUG name "Setting up fault interrupt" ;;
  gpio.setup fault_1 IN_PUD_DOWN ;;
  gpio.setup fault_2 IN_PUD_DOWN ;;
  gpio.add_event_detect fault_1 self ;;
  gpio.add_event_detect fault_2 self ;;
  logging DEBUG name "Resetting motor driver" ;;
  gpio.setup reset OUT ;;
  reset_driver self ;;
  logging DEBUG name "Registering motor" ;;
  modify (with_motors (λ ms, ms ++ [self])) ;;
  logging INFO name "Motor initialized" ;;
  modify (with_count (λ c, c + 1)) ;;
  ret self.

Definition enable_pwm (self : ref) (pwm direction : Z) (frequency : Q) : M unit :=
  setattr self (set_pin_pwm pwm) ;;
  setattr self (set_pin_dir direction) ;;
  self_logger DEBUG self "Setting up GPIO pins" ;;
  gpio.setup pwm OUT ;;
  gpio.setup direction OUT ;;
  self_logger DEBUG self "Starting PWM drivers" ;;
  gpio.output direction LOW ;;
  h <- gpio.new_PWM pwm frequency ;;
  setattr self (set__pwm h) ;;
  gpio.start h 0 ;;
  setattr self (set_has_pwm true).

Definition enable_serial (self : ref) (ser : Serial) : M unit :=
  setattr self (set_connection ser) ;;
  setattr self (set_has_serial true).

(** The faults that the callback tells apart, and the warning it logs for
    each of them. *)
Inductive fault : Type := Undervolt | Overtemp | ShortCircuitLatched.

Definition fault_message (f : fault) : string :=
  match f with
  | Undervolt => "Fault detected! Undervolt."
  | Overtemp => "Fault detected! Overtemp."
  | ShortCircuitLatched =>
      "Fault detected! Short circuit. " ++ "Motor driver has been latched."
  end.

(** [a and b] evaluates [b] only when [a] is true. *)
Definition _catch_fault (self : ref) (channel : Z) : M unit :=
  f1 <- getattr self pin_fault_1 ;;
  f2 <- getattr self pin_fault_2 ;;
  a <- gpio.input f1 ;;
  b <- (if a then gpio.input f2 else ret false) ;;
  if a && b then self_logger WARNING self (fault_message Undervolt) else
  c <- gpio.input f1 ;;
  if c then self_logger WARNING self (fault_message Overtemp) else
  d <- gpio.input f2 ;;
  if d then self_logger WARNING self (fault_message ShortCircuitLatched) else
  ret tt.

(** The scaler reads [self] and has no effect: a function of the object. *)
Definition _scale_speed (self : Motor) (speed : Q) : Q :=
  let speed :=
    if Py.gt speed 0 then (speed * (1 - start_input self) + start_input self)%Q
    else if Py.lt speed 0 then (speed * (1 - start_input self) - start_input self)%Q
    else speed in
  let speed := (speed * max_speed self)%Q in
  let speed := Py.round speed 4 in
  speed.

Definition _transmit (self : ref) (speed : Q) : M unit :=
  let packet := MotorPacket.new in
  id <- getattr self motor_id ;;
  let packet := MotorPacket.set_motor_id id packet in
  let packet := MotorPacket.set_negative (if Py.lt speed 0 then 1 else 0) packet in
  scaled <- getattr self (λ m, _scale_speed m speed) ;;
  let packet := MotorPacket.set_speed (Py.int (Py.abs scaled * 31)) packet in
  ser <- getattr_opt self "connection" connection ;;
  serial_write ser (MotorPacket.as_byte packet).

Definition _pwm_drive (self : ref) (speed : Q) : M unit :=
  speed <- getattr self (λ m, _scale_speed m speed) ;;
  dir <- getattr_opt self "pin_dir" pin_dir ;;
  gpio.output dir (if Py.lt speed 0 then LOW else HIGH) ;;
  h <- getattr_opt self "_pwm" _pwm ;;
  gpio.ChangeDutyCycle h (Py.abs speed * 100).

Definition drive (self : ref) (speed : Q) : M unit :=
  serial <- getattr self has_serial ;;
  if serial then _transmit self speed else
  pwm <- getattr self has_pwm ;;
  if pwm then _pwm_drive self speed else
  self_logger ERROR self "Cannot drive motor! No serial or PWM enabled." ;;
  raise (NoDriversError self).

(** [list.remove(x)]: drop the first occurrence, [ValueError] if none. *)
Fixpoint list_remove (x : ref) (l : list ref) : option (list ref) :=
  match l with
  | [] => None
  | y :: l' => if decide (x = y) then Some l' else cons y <$> list_remove x l'
  end.

Definition motors_remove (self : ref) : M unit :=
  ms <- gets motors ;;
  match list_remove self ms with
  | Some ms' => modify (with_motors (λ _, ms'))
  | None => raise (ValueError "list.remove(x): x not in list")
  end.

Definition shutdown (self : ref) : M unit :=
  self_logger DEBUG self "Shutting down motor" ;;
  self_logger DEBUG self "Stopping motor" ;;
  drive self 0 ;;
  self_logger DEBUG self "Deregistering motor" ;;
  motors_remove self ;;
  self_logger INFO self "Motor shut down".

(** [for motor in Motor.motors: motor.shutdown()].  The list iterator keeps
    an index [i] into the live list: each round it stops if [i] is past the
    current end, else yields [Motor.motors[i]] and moves to [i + 1].  The
    list never grows during the loop, so [fuel] rounds with [fuel] the
    initial length are enough (see [shutdown_loop_fuel]). *)
Fixpoint shutdown_loop (fuel : nat) (i : nat) : M unit :=
  ms <- gets motors ;;
  match ms !! i, fuel with
  | Some motor, S fuel' => shutdown motor ;; shutdown_loop fuel' (S i)
  | _, _ => ret tt
  end.

Definition shutdown_all : M unit :=
  logging INFO "root" "Shutting down all motors." ;;
  n <- gets (λ w, length (motors w)) ;;
  shutdown_loop n 0 ;;
  gpio.cleanup ;;
  logging INFO "root" "All motors shut down".

(** ** Runs of the program *)

(** What a client, the GPIO library or the hardware can do next.  A method
    is only ever called on an existing object. *)
Inductive event : Type :=
| New (name : string) (fault_1 fault_2 reset : Z) (start_input max_speed : Q)
| EnablePwm (self : ref) (pwm direction : Z) (frequency : Q)
| EnableSerial (self : ref) (ser : Serial)
| Drive (self : ref) (speed : Q)
| ResetDriver (self : ref)
| Shutdown (self : ref)
| ShutdownAll
| CatchFault (self : ref) (channel : Z)
| InputLevel (channel : Z) (value : bool).

Definition exec {A} (c : M A) (w : World) : World := snd (c w).

Definition set_input (channel : Z) (value : bool) : M unit :=
  modify (with_gpio (λ g,
    mkGPIO (channels g) (out_level g) (<[channel := value]> (in_level g))
           (callbacks g) (pwms g) (cleanups g))).

Definition run (e : event) : World → World :=
  match e with
  | New n f1 f2 r s m => exec (__init__ n f1 f2 r s m)
  | EnablePwm self p d f => exec (enable_pwm self p d f)
  | EnableSerial self ser => exec (enable_serial self ser)
  | Drive self v => exec (drive self v)
  | ResetDriver self => exec (reset_driver self)
  | Shutdown self => exec (shutdown self)
  | ShutdownAll => exec shutdown_all
  | CatchFault self ch => exec (_catch_fault self ch)
  | InputLevel ch v => exec (set_input ch v)
  end.

Definition receiver (e : event) : option ref :=
  match e with
  | EnablePwm self _ _ _ | EnableSerial self _ | Drive self _
  | ResetDriver self | Shutdown self | CatchFault self _ => Some self
  | New _ _ _ _ _ _ | ShutdownAll | InputLevel _ _ => None
  end.

Inductive reachable : World → Prop :=
| reachable_init : reachable init
| reachable_step w e :
    reachable w →
    (∀ self, receiver e = Some self → (self < length (heap w))%nat) →
    reachable (run e w).

(** Replay of a list of events, for concrete scenarios. *)
Definition replay (es : list event) (w : World) : World :=
  foldl (λ w e, run e w) w es.

(** A run is valid when every method call has an existing receiver. *)
Fixpoint valid_run (es : list event) (w : World) : bool :=
  match es with
  | [] => true
  | e :: es' =>
      match receiver e with
      | Some self => bool_decide (self < length (heap w))%nat
      | None => true
      end && valid_run es' (run e w)
  end.

(** ** Scenarios *)

(** [Motor("left", 1, 2, 3, start_input=0.2, max_speed=0.8)] followed by
    [enable_pwm(4, 5)], and then by [enable_serial] on port 7. *)
Definition scenario_A : list event :=
  [New "left" 1 2 3 (2 # 10) (8 # 10); EnablePwm 0%nat 4 5 default_frequency].
Definition scenario_B : list event :=
  scenario_A ++ [EnableSerial 0%nat 7%nat].
Definition left_motor : Motor :=
  mkMotor "left" 0 1 2 3 (2 # 10) (8 # 10) true true (Some 7%nat) (Some 4) (Some 5)
    (Some 0%nat).

(** Two registered motors on one serial link. *)
Definition scenario_C : list event :=
  [New "left" 1 2 3 default_start_input default_max_speed;
   New "right" 4 5 6 default_start_input default_max_speed;
   EnableSerial 0%nat 7%nat; EnableSerial 1%nat 7%nat].

(** Four registered motors, the first of them on a serial link. *)
Definition four_motors : list event :=
  [New "a" 1 2 3 default_start_input default_max_speed;
   New "b" 4 5 6 default_start_input default_max_speed;
   New "c" 7 8 9 default_start_input default_max_speed;
   New "d" 10 11 12 default_start_input default_max_speed;
   EnableSerial 0%nat 7%nat].
Definition motor_a : Motor :=
  mkMotor "a" 0 1 2 3 default_start_input default_max_speed true false (Some 7%nat)
    None None None.

(** A motor that was given no driver, and its fault lines at each of the
    four pairs of levels. *)
Definition bare : list event :=
  [New "left" 1 2 3 default_start_input default_max_speed].
Definition bare_motor : Motor :=
  mkMotor "left" 0 1 2 3 default_start_input default_max_speed false false
    None None None None.
Definition fault_lines (ff1 ff2 : bool) : list event :=
  bare ++ [InputLevel 1 ff1; InputLevel 2 ff2].

(** ** What every reachable state satisfies *)

Definition motor_ok (r : ref) (m : Motor) : Prop :=
  motor_id m = Z.of_nat r ∧
  (0 <= start_input m <= 1)%Q ∧
  (0 <= max_speed m <= 1)%Q ∧
  (has_serial m = true → is_Some (connection m)) ∧
  (has_pwm m = true → is_Some (pin_dir m) ∧ is_Some (_pwm m)).

Record Inv (w : World) : Prop := mkInv {
  inv_count : _count w = Z.of_nat (length (heap w));
  inv_capacity : _count w <= 4;
  inv_live : Forall (λ r, (r < length (heap w))%nat) (motors w);
  inv_nodup : NoDup (motors w);
  inv_objects : ∀ r m, heap w !! r = Some m → motor_ok r m
}.

(** The objects, the registry and the counter. *)
Definition registry (w : World) : list Motor * list ref * Z :=
  (heap w, motors w, _count w).

(** Computations that leave them alone, whatever their outcome. *)
Definition keeps_registry {A} (c : M A) : Prop :=
  ∀ w, registry (exec c w) = registry w.

(** States that differ from [w] by deregistrations only. *)
Definition deregistered (w w' : World) : Prop :=
  heap w' = heap w ∧ _count w' = _count w ∧ sublist (motors w') (motors w).

(** Computations that at most deregister motors, whatever their outcome. *)
Definition deregisters {A} (c : M A) : Prop :=
  ∀ w, deregistered w (exec c w).

Arguments _scale_speed : simpl never.
Arguments Py.round : simpl never.
Arguments Py.int : simpl never.
Arguments Py.abs : simpl never.
Arguments Py.lt : simpl never.
Arguments Py.le_le : simpl never.
Arguments MotorPacket.as_byte : simpl never.
Arguments MotorPacket.set_speed : simpl never.
Arguments MotorPacket.set_negative : simpl never.
Arguments MotorPacket.set_motor_id : simpl never.
Arguments fault_message : simpl never.

(** Symbolic execution of a method body. *)
Ltac py_unfold :=
  unfold drive, _transmit, _pwm_drive, shutdown, motors_remove, _catch_fault,
    reset_driver, enable_serial, enable_pwm, set_input,
    self_logger, logging, sleep, serial_write,
    gpio.setup, gpio.add_event_detect, gpio.output, gpio.input, gpio.new_PWM,
    gpio.start, gpio.ChangeDutyCycle, gpio.set_duty, gpio.cleanup,
    getattr_opt, getattr, setattr, bind, ret, raise, gets, modify.

(** Four registered motors, all of them on one serial link. *)
Definition four_serial : list event :=
  four_motors ++
  [EnableSerial 1%nat 7%nat; EnableSerial 2%nat 7%nat; EnableSerial 3%nat 7%nat].

(** ** Printing *)

(** [str(motor)] and [repr(motor)]; [pretty] prints an integer in decimal,
    with a leading minus sign when negative, as [format] does. *)
Definition __str__ (self : Motor) : string := name self.

Definition __repr__ (self : Motor) : string :=
  name self ++ " (ID# " ++ pretty (motor_id self) ++ ")".

(** ** Further notions used in the properties *)

(** What a [for] loop that removes the element it is visiting leaves of a
    list: the iterator moves on by one while the rest shifts down by one,
    so every other element, starting with the second, is never visited. *)
Fixpoint unvisited (l : list ref) : list ref :=
  match l with
  | _ :: y :: l' => y :: unvisited l'
  | _ => []
  end.

(** Every PWM handle held by a motor denotes an existing PWM object. *)
Definition pwm_live (w : World) : Prop :=
  ∀ r m h, heap w !! r = Some m → _pwm m = Some h →
    (h < length (pwms (gpio w)))%nat.

(** Computations whose initial and final states are always related by
    [R], whatever their outcome. *)
Definition respects (R : World → World → Prop) {A} (c : M A) : Prop :=
  ∀ w, R w (exec c w).

(** No PWM object is destroyed. *)
Definition pwms_kept (w w' : World) : Prop :=
  (length (pwms (gpio w)) ≤ length (pwms (gpio w')))%nat.

(** [gpio.cleanup()] has not been called in between. *)
Definition cleanups_kept (w w' : World) : Prop :=
  cleanups (gpio w') = cleanups (gpio w).

(** A motor that [drive] can serve: a serial port behind [has_serial], or
    a direction pin and a PWM object behind [has_pwm]. *)
Definition drivable (m : Motor) : Prop :=
  (has_serial m = true ∧ is_Some (connection m)) ∨
  (has_serial m = false ∧ has_pwm m = true ∧
   is_Some (pin_dir m) ∧ is_Some (_pwm m)).

(** The methods, unfolded down to the operations on the state. *)
Ltac py_methods :=
  unfold __init__, shutdown_all, shutdown, motors_remove, drive, _transmit,
    _pwm_drive, _catch_fault, reset_driver, enable_serial, enable_pwm, set_input,
    self_logger, logging, sleep, serial_write,
    gpio.setup, gpio.add_event_detect, gpio.output, gpio.input, gpio.new_PWM,
    gpio.start, gpio.ChangeDutyCycle, gpio.set_duty, gpio.cleanup, getattr_opt.

Arguments __repr__ : simpl never.

(** * Properties *)

(** ** Python numbers *)

Section Numbers.
Local Open Scope Q_scope.

Lemma le_true (a b : Q) : Py.le a b = true ↔ a <= b.
Proof. apply Qle_bool_iff. Qed.

Lemma lt_true (a b : Q) : Py.lt a b = true ↔ a < b.
Proof.
  unfold Py.lt. rewrite negb_true_iff, <- not_true_iff_false, Qle_bool_iff.
  split; [apply Qnot_le_lt | apply Qlt_not_le].
Qed.

Lemma lt_false (a b : Q) : Py.lt a b = false ↔ b <= a.
Proof. unfold Py.lt. rewrite negb_false_iff. apply Qle_bool_iff. Qed.

Lemma le_le_true (a b c : Q) : Py.le_le a b c = true ↔ a <= b ∧ b <= c.
Proof. unfold Py.le_le. rewrite andb_true_iff, !le_true. tauto. Qed.

Lemma round_half_even_cases (x : Q) :
  let r := Py.round_half_even x in
  (r = Qfloor x ∧ x - inject_Z (Qfloor x) <= 1 # 2) ∨
  (r = (Qfloor x + 1)%Z ∧ 1 # 2 <= x - inject_Z (Qfloor x)).
Proof.
  unfold Py.round_half_even.
  destruct (Qcompare_spec (x - inject_Z (Qfloor x)) (1 # 2)) as [H|H|H].
  - destruct (Z.even (Qfloor x)); [left | right]; split; auto; rewrite H; lra.
  - left. split; auto. lra.
  - right. split; auto. lra.
Qed.

Lemma round_half_even_near (x : Q) :
  inject_Z (Py.round_half_even x) - (1 # 2) <= x ∧
  x <= inject_Z (Py.round_half_even x) + (1 # 2).
Proof.
  pose proof (Qfloor_le x) as Hlo. pose proof (Qlt_floor x) as Hhi.
  rewrite inject_Z_plus in Hhi. change (inject_Z 1) with 1 in Hhi.
  destruct (round_half_even_cases x) as [[-> H]|[-> H]].
  - split; lra.
  - rewrite inject_Z_plus. change (inject_Z 1) with 1. split; lra.
Qed.

Global Instance round_half_even_proper : Proper (Qeq ==> eq) Py.round_half_even.
Proof.
  intros x y E. unfold Py.round_half_even.
  rewrite (Qfloor_comp _ _ E).
  assert (E' : x - inject_Z (Qfloor y) == y - inject_Z (Qfloor y)) by (rewrite E; reflexivity).
  rewrite (Qcompare_comp _ _ E' (1#2) (1#2) (Qeq_refl _)). reflexivity.
Qed.

Lemma round_half_even_mono (x y : Q) :
  x <= y → (Py.round_half_even x <= Py.round_half_even y)%Z.
Proof.
  intros Hxy.
  destruct (Qle_lt_or_eq _ _ Hxy) as [Hlt | Heq]; [| rewrite Heq; reflexivity].
  destruct (round_half_even_near x) as [Hx _], (round_half_even_near y) as [_ Hy].
  destruct (Z_le_gt_dec (Py.round_half_even x) (Py.round_half_even y)) as [|Hgt]; [assumption|].
  exfalso.
  assert (Hz : (Py.round_half_even y + 1 <= Py.round_half_even x)%Z) by lia.
  rewrite Zle_Qle, inject_Z_plus in Hz. change (inject_Z 1) with 1 in Hz.
  lra.
Qed.

Lemma round_half_even_inject (n : Z) : Py.round_half_even (inject_Z n) = n.
Proof.
  unfold Py.round_half_even. rewrite Qfloor_Z.
  destruct (Qcompare_spec (inject_Z n - inject_Z n) (1 # 2)) as [H|H|H]; auto; lra.
Qed.


Lemma round_half_even_spec (x : Q) :
  let d := x - inject_Z (Py.round_half_even x) in
  (- (1 # 2) < d ∧ d < 1 # 2) ∨
  ((d == 1 # 2 ∨ d == - (1 # 2)) ∧ Z.even (Py.round_half_even x) = true).
Proof.
  pose proof (Qfloor_le x) as Hlo. pose proof (Qlt_floor x) as Hhi.
  rewrite inject_Z_plus in Hhi. change (inject_Z 1) with 1 in Hhi.
  unfold Py.round_half_even.
  destruct (Qcompare_spec (x - inject_Z (Qfloor x)) (1 # 2)) as [H|H|H].
  - right. destruct (Z.even (Qfloor x)) eqn:E.
    + split; [left; assumption | assumption].
    + split.
      * right. rewrite inject_Z_plus. change (inject_Z 1) with 1. lra.
      * rewrite Z.add_1_r, Z.even_succ, <- Z.negb_even, E. reflexivity.
  - left. split; lra.
  - left. rewrite inject_Z_plus. change (inject_Z 1) with 1. split; lra.
Qed.

Lemma round_half_even_unique (x : Q) (r : Z) :
  (- (1 # 2) < x - inject_Z r ∧ x - inject_Z r < 1 # 2) ∨
  ((x - inject_Z r == 1 # 2 ∨ x - inject_Z r == - (1 # 2)) ∧ Z.even r = true) →
  Py.round_half_even x = r.
Proof.
  intros Hr. pose proof (round_half_even_spec x) as H0. cbv zeta in H0.
  set (r0 := Py.round_half_even x) in *.
  assert (Hle : inject_Z r0 <= inject_Z r + 1 ∧ inject_Z r <= inject_Z r0 + 1).
  { destruct Hr as [[? ?]|[[?|?] _]], H0 as [[? ?]|[[?|?] _]]; split; lra. }
  change 1 with (inject_Z 1) in Hle. rewrite <- !inject_Z_plus, <- !Zle_Qle in Hle.
  assert (Hc : (r0 = r ∨ r0 = r + 1 ∨ r = r0 + 1)%Z) by lia.
  destruct Hc as [?|[E|E]]; [assumption | exfalso ..].
  - rewrite E, inject_Z_plus in H0. change (inject_Z 1) with 1 in H0.
    assert (Ev : Z.even (r + 1) = negb (Z.even r))
      by (rewrite Z.add_1_r, Z.even_succ, <- Z.negb_even; reflexivity).
    rewrite Ev in H0.
    destruct Hr as [[? ?]|[[?|?] Er]], H0 as [[? ?]|[[?|?] E0]]; try lra.
    rewrite Er in E0. discriminate.
  - rewrite E, inject_Z_plus in Hr. change (inject_Z 1) with 1 in Hr.
    assert (Ev : Z.even (r0 + 1) = negb (Z.even r0))
      by (rewrite Z.add_1_r, Z.even_succ, <- Z.negb_even; reflexivity).
    rewrite Ev in Hr.
    destruct Hr as [[? ?]|[[?|?] Er]], H0 as [[? ?]|[[?|?] E0]]; try lra.
    rewrite E0 in Er. discriminate.
Qed.

Lemma round_half_even_opp (x : Q) :
  Py.round_half_even (- x) = (- Py.round_half_even x)%Z.
Proof.
  apply round_half_even_unique.
  pose proof (round_half_even_spec x) as H0. cbv zeta in H0.
  rewrite inject_Z_opp, Z.even_opp.
  destruct H0 as [[? ?]|[[?|?] E0]].
  - left. split; lra.
  - right. split; [right; lra | assumption].
  - right. split; [left; lra | assumption].
Qed.

Lemma round4_eq (x : Q) :
  Py.round x 4 = inject_Z (Py.round_half_even (x * 10000)) * (1 # 10000).
Proof. reflexivity. Qed.

Global Instance round_proper : Proper (Qeq ==> eq ==> Qeq) Py.round.
Proof.
  intros x y E n ? <-. unfold Py.round.
  assert (E' : x * inject_Z (10 ^ Z.of_nat n) == y * inject_Z (10 ^ Z.of_nat n))
    by (rewrite E; reflexivity).
  rewrite (round_half_even_proper _ _ E'). reflexivity.
Qed.

Lemma round4_near (x : Q) :
  x - (1 # 20000) <= Py.round x 4 ∧ Py.round x 4 <= x + (1 # 20000).
Proof.
  rewrite round4_eq.
  destruct (round_half_even_near (x * 10000)) as [H1 H2].
  set (n := inject_Z (Py.round_half_even (x * 10000))) in *.
  split; lra.
Qed.

Lemma round4_mono (x y : Q) : x <= y → Py.round x 4 <= Py.round y 4.
Proof.
  intros H. rewrite !round4_eq.
  assert (H' : x * 10000 <= y * 10000) by lra.
  apply round_half_even_mono in H'. rewrite Zle_Qle in H'.
  lra.
Qed.

Lemma round4_grid (k : Z) :
  Py.round (inject_Z k * (1 # 10000)) 4 == inject_Z k * (1 # 10000).
Proof.
  rewrite round4_eq.
  assert (E : inject_Z k * (1 # 10000) * 10000 == inject_Z k) by lra.
  rewrite (round_half_even_proper _ _ E), round_half_even_inject. reflexivity.
Qed.

Lemma round4_0 : Py.round 0 4 == 0.
Proof. reflexivity. Qed.

Lemma round4_1 : Py.round 1 4 == 1.
Proof. reflexivity. Qed.

Lemma round4_opp (x : Q) : Py.round (- x) 4 == - Py.round x 4.
Proof.
  rewrite !round4_eq.
  assert (E : - x * 10000 == - (x * 10000)) by lra.
  rewrite (round_half_even_proper _ _ E), round_half_even_opp, inject_Z_opp. lra.
Qed.

End Numbers.

(** ** The speed scaler *)

Section Scaler.
Local Open Scope Q_scope.

Lemma scale_pos (self : Motor) (speed : Q) :
  0 < speed →
  _scale_speed self speed =
    Py.round ((speed * (1 - start_input self) + start_input self) * max_speed self) 4.
Proof.
  intros H. unfold _scale_speed, Py.gt.
  apply lt_true in H. rewrite H. reflexivity.
Qed.

Lemma scale_neg (self : Motor) (speed : Q) :
  speed < 0 →
  _scale_speed self speed =
    Py.round ((speed * (1 - start_input self) - start_input self) * max_speed self) 4.
Proof.
  intros H. unfold _scale_speed, Py.gt.
  assert (H0 : Py.lt 0 speed = false) by (apply lt_false; lra).
  apply lt_true in H. rewrite H0, H. reflexivity.
Qed.

Lemma scale_zero (self : Motor) (speed : Q) :
  speed == 0 → _scale_speed self speed = Py.round (speed * max_speed self) 4.
Proof.
  intros H. unfold _scale_speed, Py.gt.
  assert (H0 : Py.lt 0 speed = false) by (apply lt_false; lra).
  assert (H1 : Py.lt speed 0 = false) by (apply lt_false; lra).
  rewrite H0, H1. reflexivity.
Qed.

Lemma product_bounds (t m : Q) : 0 <= t <= 1 → 0 <= m <= 1 → 0 <= t * m ∧ t * m <= m.
Proof. intros [? ?] [? ?]. split; nra. Qed.

Lemma dead_zone_bounds (v s : Q) : 0 <= v <= 1 → 0 <= s <= 1 → 0 <= v * (1 - s) + s <= 1.
Proof. intros [? ?] [? ?]. split; nra. Qed.

(** The scaled speed of a forward request lies between 0 and the rounded
    ceiling; that of a backward request is its mirror image. *)
Lemma scale_forward (self : Motor) (speed : Q) :
  0 <= start_input self <= 1 → 0 <= max_speed self <= 1 → 0 < speed <= 1 →
  0 <= _scale_speed self speed <= Py.round (max_speed self) 4.
Proof.
  intros Hs Hm Hv. rewrite (scale_pos _ _ (proj1 Hv)).
  destruct (dead_zone_bounds speed (start_input self)) as [? ?]; [lra | lra |].
  destruct (product_bounds (speed * (1 - start_input self) + start_input self)
              (max_speed self)) as [? ?]; [lra | lra |].
  split.
  - rewrite <- round4_0. apply round4_mono. assumption.
  - apply round4_mono. assumption.
Qed.

Lemma scale_backward (self : Motor) (speed : Q) :
  speed < 0 → _scale_speed self speed == - _scale_speed self (- speed).
Proof.
  intros Hv. rewrite (scale_neg _ _ Hv), scale_pos by lra.
  rewrite <- round4_opp. apply round_proper; [| reflexivity]. lra.
Qed.

Lemma scale_zero_eq (self : Motor) (speed : Q) :
  speed == 0 → _scale_speed self speed == 0.
Proof.
  intros E. rewrite (scale_zero _ _ E).
  assert (E' : speed * max_speed self == 0) by (rewrite E; lra).
  rewrite E'. reflexivity.
Qed.

Lemma scale_abs_le (self : Motor) (speed : Q) :
  0 <= start_input self <= 1 → 0 <= max_speed self <= 1 → -1 <= speed <= 1 →
  Qabs (_scale_speed self speed) <= Py.round (max_speed self) 4.
Proof.
  intros Hs Hm Hv.
  assert (Hr : 0 <= Py.round (max_speed self) 4).
  { rewrite <- round4_0. apply round4_mono. lra. }
  apply Qabs_Qle_condition.
  destruct (Q_dec speed 0) as [[H|H]|H].
  - rewrite (scale_backward _ _ H).
    destruct (scale_forward self (- speed)) as [? ?]; auto; split; lra.
  - destruct (scale_forward self speed) as [? ?]; auto; split; lra.
  - rewrite (scale_zero_eq _ _ H). split; lra.
Qed.

(** A forward request whose unrounded result reaches 0.0001 is not
    rounded down to zero. *)
Lemma scale_forward_strict (self : Motor) (speed : Q) :
  0 < speed →
  1 # 10000 <= (speed * (1 - start_input self) + start_input self) * max_speed self →
  1 # 10000 <= _scale_speed self speed.
Proof.
  intros Hv H. rewrite (scale_pos _ _ Hv).
  assert (E : 1 # 10000 == Py.round (inject_Z 1 * (1 # 10000)) 4) by reflexivity.
  rewrite E at 1. apply round4_mono. exact H.
Qed.

End Scaler.

(** ** Computations that leave the registry alone *)

Section Frames.

Lemma keeps_ret {A} (a : A) : keeps_registry (ret a).
Proof. intros w. reflexivity. Qed.

Lemma keeps_raise {A} (e : exn) : keeps_registry (@raise A e).
Proof. intros w. reflexivity. Qed.

Lemma keeps_gets {A} (f : World → A) : keeps_registry (gets f).
Proof. intros w. reflexivity. Qed.

Lemma keeps_modify (f : World → World) :
  (∀ w, registry (f w) = registry w) → keeps_registry (modify f).
Proof. intros H w. apply H. Qed.

Lemma keeps_bind {A B} (c : M A) (k : A → M B) :
  keeps_registry c → (∀ a, keeps_registry (k a)) → keeps_registry (bind c k).
Proof.
  intros Hc Hk w. specialize (Hc w). unfold exec, bind in *.
  destruct (c w) as [[a|e] w1]; cbn in *.
  - rewrite <- Hc. apply Hk.
  - exact Hc.
Qed.

Lemma keeps_getattr {A} (self : ref) (field : Motor → A) :
  keeps_registry (getattr self field).
Proof. intros w. unfold exec, getattr. destruct (heap w !! self); reflexivity. Qed.

Lemma keeps_getattr_opt {A} (self : ref) (attr : string) (field : Motor → option A) :
  keeps_registry (getattr_opt self attr field).
Proof.
  apply keeps_bind; [apply keeps_getattr |].
  intros [a|]; [apply keeps_ret | apply keeps_raise].
Qed.

Lemma keeps_logging (l : loglevel) (logger msg : string) :
  keeps_registry (logging l logger msg).
Proof. apply keeps_modify. reflexivity. Qed.

Lemma keeps_self_logger (l : loglevel) (self : ref) (msg : string) :
  keeps_registry (self_logger l self msg).
Proof. apply keeps_bind; [apply keeps_getattr | intros; apply keeps_logging]. Qed.

Lemma keeps_output (channel : Z) (value : bool) : keeps_registry (gpio.output channel value).
Proof. apply keeps_modify. reflexivity. Qed.

Lemma keeps_input (channel : Z) : keeps_registry (gpio.input channel).
Proof. apply keeps_gets. Qed.

Lemma keeps_reset_driver (self : ref) : keeps_registry (reset_driver self).
Proof.
  apply keeps_bind; [apply keeps_getattr | intros pin].
  apply keeps_bind; [apply keeps_output | intros _].
  apply keeps_bind; [apply keeps_modify; reflexivity | intros _].
  apply keeps_output.
Qed.

Lemma keeps_transmit (self : ref) (speed : Q) : keeps_registry (_transmit self speed).
Proof.
  apply keeps_bind; [apply keeps_getattr | intros id].
  apply keeps_bind; [apply keeps_getattr | intros scaled].
  apply keeps_bind; [apply keeps_getattr_opt | intros ser].
  apply keeps_modify. reflexivity.
Qed.

Lemma keeps_pwm_drive (self : ref) (speed : Q) : keeps_registry (_pwm_drive self speed).
Proof.
  apply keeps_bind; [apply keeps_getattr | intros scaled].
  apply keeps_bind; [apply keeps_getattr_opt | intros dir].
  apply keeps_bind; [apply keeps_output | intros _].
  apply keeps_bind; [apply keeps_getattr_opt | intros h].
  apply keeps_modify. reflexivity.
Qed.

Lemma keeps_drive (self : ref) (speed : Q) : keeps_registry (drive self speed).
Proof.
  apply keeps_bind; [apply keeps_getattr | intros [|]]; [apply keeps_transmit |].
  apply keeps_bind; [apply keeps_getattr | intros [|]]; [apply keeps_pwm_drive |].
  apply keeps_bind; [apply keeps_self_logger | intros _; apply keeps_raise].
Qed.

Lemma keeps_catch_fault (self : ref) (channel : Z) :
  keeps_registry (_catch_fault self channel).
Proof.
  apply keeps_bind; [apply keeps_getattr | intros f1].
  apply keeps_bind; [apply keeps_getattr | intros f2].
  apply keeps_bind; [apply keeps_input | intros a].
  apply keeps_bind; [destruct a; [apply keeps_input | apply keeps_ret] | intros b].
  destruct (a && b); [apply keeps_self_logger |].
  apply keeps_bind; [apply keeps_input | intros [|]]; [apply keeps_self_logger |].
  apply keeps_bind; [apply keeps_input | intros [|]]; [apply keeps_self_logger |].
  apply keeps_ret.
Qed.

Lemma keeps_set_input (channel : Z) (value : bool) :
  keeps_registry (set_input channel value).
Proof. apply keeps_modify. reflexivity. Qed.

End Frames.

(** ** Effect of the methods that update an object or create one *)

Section Effects.

Lemma bind_gets {A B} (f : World → A) (k : A → M B) (w : World) :
  bind (gets f) k w = k (f w) w.
Proof. reflexivity. Qed.

Lemma enable_serial_run (w : World) (self : ref) (m : Motor) (ser : Serial) :
  heap w !! self = Some m →
  enable_serial self ser w =
    (Return tt,
     with_heap (λ h, <[self := set_has_serial true (set_connection ser m)]> h) w).
Proof.
  intros H. pose proof (lookup_lt_Some _ _ _ H) as Hlt.
  py_unfold. rewrite H. cbn.
  rewrite list_lookup_insert_eq by assumption.
  unfold with_heap. cbn. rewrite list_insert_insert_eq. reflexivity.
Qed.

Lemma enable_pwm_run (w : World) (self : ref) (m : Motor) (pwm direction : Z) (frequency : Q) :
  heap w !! self = Some m →
  ∃ w', enable_pwm self pwm direction frequency w = (Return tt, w') ∧
    heap w' = <[self := set_has_pwm true (set__pwm (length (pwms (gpio w)))
                          (set_pin_dir direction (set_pin_pwm pwm m)))]> (heap w) ∧
    motors w' = motors w ∧ _count w' = _count w.
Proof.
  intros H. pose proof (lookup_lt_Some _ _ _ H) as Hlt.
  py_unfold. rewrite H. cbn.
  repeat (rewrite list_lookup_insert_eq by (rewrite ?length_insert; assumption); cbn).
  eexists. split; [reflexivity |]. cbn.
  rewrite !list_insert_insert_eq. auto.
Qed.

Lemma init_run (w : World) (n : string) (f1 f2 r : Z) (s mx : Q) :
  let m := mkMotor n (_count w) f1 f2 r s mx false false None None None None in
  (_count w = 4 ∧ __init__ n f1 f2 r s mx w = (Raise TooManyMotorsError, w)) ∨
  (_count w ≠ 4 ∧ ¬ (0 <= s <= 1)%Q ∧
     __init__ n f1 f2 r s mx w =
       (Raise (InvalidArgError "start_input should be between 0 and 1."), w)) ∨
  (_count w ≠ 4 ∧ (0 <= s <= 1)%Q ∧ ¬ (0 <= mx <= 1)%Q ∧
     __init__ n f1 f2 r s mx w =
       (Raise (InvalidArgError "max_speed should be between 0 and 1."), w)) ∨
  (_count w ≠ 4 ∧ (0 <= s <= 1)%Q ∧ (0 <= mx <= 1)%Q ∧
     ∃ w', __init__ n f1 f2 r s mx w = (Return (length (heap w)), w') ∧
       heap w' = heap w ++ [m] ∧
       motors w' = motors w ++ [length (heap w)] ∧
       _count w' = _count w + 1).
Proof.
  intros m. unfold __init__. rewrite bind_gets.
  destruct (_count w =? 4) eqn:Ec.
  { left. apply Z.eqb_eq in Ec. auto. }
  apply Z.eqb_neq in Ec. right.
  destruct (Py.le_le 0 s 1) eqn:Es; cbn [negb].
  2:{ left. split; [assumption|]. split; [|reflexivity].
      rewrite <- le_le_true, Es. discriminate. }
  apply le_le_true in Es. right.
  destruct (Py.le_le 0 mx 1) eqn:Em; cbn [negb].
  2:{ left. repeat split; try assumption; try apply Es.
      rewrite <- le_le_true, Em. discriminate. }
  apply le_le_true in Em. right.
  split; [assumption|]. split; [assumption|]. split; [assumption|].
  py_unfold. cbn.
  rewrite lookup_app_r by lia. rewrite Nat.sub_diag. cbn.
  eexists. split; [reflexivity|]. cbn. auto.
Qed.

End Effects.

(** ** Deregistration *)

Section Deregistration.

Lemma list_remove_Some (x : ref) (l l' : list ref) :
  list_remove x l = Some l' →
  sublist l' l ∧ length l = S (length l') ∧ x ∈ l ∧ (NoDup l → x ∉ l').
Proof.
  revert l'. induction l as [|y l IH]; intros l' H; cbn in H; [discriminate|].
  destruct (decide (x = y)) as [->|Hne].
  - injection H as <-. repeat split.
    + apply sublist_cons, reflexivity.
    + left.
    + intros Hnd. apply NoDup_cons in Hnd. tauto.
  - destruct (list_remove x l) as [l0|] eqn:E; cbn in H; [|discriminate].
    injection H as <-. destruct (IH l0 eq_refl) as (Hs & Hl & Hin & Hnd).
    repeat split.
    + apply sublist_skip, Hs.
    + cbn. lia.
    + right. assumption.
    + intros Hd. apply NoDup_cons in Hd as [_ Hd].
      rewrite not_elem_of_cons. auto.
Qed.

Lemma list_remove_None (x : ref) (l : list ref) :
  list_remove x l = None ↔ x ∉ l.
Proof.
  induction l as [|y l IH]; cbn.
  - split; [intros _; apply not_elem_of_nil | reflexivity].
  - rewrite not_elem_of_cons. destruct (decide (x = y)) as [->|Hne].
    + split; [discriminate | tauto].
    + destruct (list_remove x l); cbn.
      * split; [discriminate|]. intros [_ H]. apply IH in H. discriminate.
      * split; [|reflexivity]. intros _. split; [assumption|]. apply IH. reflexivity.
Qed.

Lemma deregistered_refl (w : World) : deregistered w w.
Proof. repeat split; reflexivity. Qed.

Lemma deregistered_trans (w1 w2 w3 : World) :
  deregistered w1 w2 → deregistered w2 w3 → deregistered w1 w3.
Proof.
  intros (H1 & H2 & H3) (H4 & H5 & H6). repeat split; try congruence.
  etransitivity; eassumption.
Qed.

Lemma keeps_deregisters {A} (c : M A) : keeps_registry c → deregisters c.
Proof.
  intros H w. specialize (H w). unfold registry in H. injection H as H1 H2 H3.
  repeat split; try assumption. rewrite H2. reflexivity.
Qed.

Lemma deregisters_bind {A B} (c : M A) (k : A → M B) :
  deregisters c → (∀ a, deregisters (k a)) → deregisters (bind c k).
Proof.
  intros Hc Hk w. specialize (Hc w). unfold exec, bind in *.
  destruct (c w) as [[a|e] w1]; cbn in *.
  - eapply deregistered_trans; [exact Hc | apply Hk].
  - exact Hc.
Qed.

Lemma deregisters_motors_remove (self : ref) : deregisters (motors_remove self).
Proof.
  intros w. unfold motors_remove, exec, bind, gets.
  destruct (list_remove self (motors w)) as [ms'|] eqn:E; cbn.
  - repeat split. apply list_remove_Some in E. tauto.
  - apply deregistered_refl.
Qed.

Lemma deregisters_shutdown (self : ref) : deregisters (shutdown self).
Proof.
  repeat (apply deregisters_bind;
    [first [apply keeps_deregisters; first [apply keeps_self_logger | apply keeps_drive]
           | apply deregisters_motors_remove]
    | intros _]).
  apply keeps_deregisters, keeps_self_logger.
Qed.

Lemma deregisters_shutdown_loop (fuel i : nat) : deregisters (shutdown_loop fuel i).
Proof.
  revert i. induction fuel as [|fuel IH]; intros i; cbn [shutdown_loop].
  - apply deregisters_bind; [apply keeps_deregisters, keeps_gets | intros ms].
    destruct (ms !! i); apply keeps_deregisters, keeps_ret.
  - apply deregisters_bind; [apply keeps_deregisters, keeps_gets | intros ms].
    destruct (ms !! i); [| apply keeps_deregisters, keeps_ret].
    apply deregisters_bind; [apply deregisters_shutdown | intros _; apply IH].
Qed.

Lemma deregisters_shutdown_all : deregisters shutdown_all.
Proof.
  apply deregisters_bind; [apply keeps_deregisters, keeps_logging | intros _].
  apply deregisters_bind; [apply keeps_deregisters, keeps_gets | intros n].
  apply deregisters_bind; [apply deregisters_shutdown_loop | intros _].
  apply deregisters_bind; [apply keeps_deregisters, keeps_modify; reflexivity | intros _].
  apply keeps_deregisters, keeps_logging.
Qed.

(** The loop [for motor in Motor.motors] needs no more rounds than there
    are motors left past the iterator: extra fuel changes nothing. *)
Lemma shutdown_loop_fuel (fuel extra i : nat) (w : World) :
  (length (motors w) - i ≤ fuel)%nat →
  shutdown_loop (fuel + extra) i w = shutdown_loop fuel i w.
Proof.
  revert i w. induction fuel as [|fuel IH]; intros i w Hf.
  - assert (Hn : motors w !! i = None) by (apply lookup_ge_None; lia).
    destruct extra; cbn [shutdown_loop Nat.add]; rewrite !bind_gets, Hn; reflexivity.
  - cbn [shutdown_loop Nat.add]. rewrite !bind_gets.
    destruct (motors w !! i) as [motor|] eqn:E; [|reflexivity].
    pose proof (deregisters_shutdown motor w) as (_ & _ & Hs).
    apply sublist_length in Hs. unfold exec in Hs.
    unfold bind. destruct (shutdown motor w) as [[[]|e] w1]; [|reflexivity].
    cbn in Hs. apply IH. lia.
Qed.

End Deregistration.

(** ** The invariant holds along every run *)

Section Invariant.

Lemma Inv_init : Inv init.
Proof.
  split; cbn; try reflexivity; try lia.
  - constructor.
  - constructor.
  - intros r m H. rewrite lookup_nil in H. discriminate.
Qed.

Lemma Forall_sublist {A} (P : A → Prop) (l' l : list A) :
  sublist l' l → Forall P l → Forall P l'.
Proof.
  induction 1 as [|x l1 l2 _ IH|x l1 l2 _ IH]; intros H.
  - constructor.
  - apply Forall_cons in H as [? ?]. constructor; auto.
  - apply Forall_cons in H as [? ?]. auto.
Qed.

Lemma Inv_deregistered (w w' : World) : Inv w → deregistered w w' → Inv w'.
Proof.
  intros [I1 I2 I3 I4 I5] (Hh & Hc & Hs).
  split; rewrite ?Hh, ?Hc; try assumption.
  - eapply Forall_sublist; eassumption.
  - eapply sublist_NoDup; eassumption.
Qed.

Lemma Inv_keeps {A} (c : M A) (w : World) : keeps_registry c → Inv w → Inv (exec c w).
Proof. intros H I. eapply Inv_deregistered; [exact I | apply keeps_deregisters, H]. Qed.

Lemma Inv_update (w w' : World) (self : ref) (m' : Motor) :
  Inv w →
  heap w' = <[self := m']> (heap w) → motors w' = motors w → _count w' = _count w →
  motor_ok self m' →
  Inv w'.
Proof.
  intros [I1 I2 I3 I4 I5] Hh Hm Hc Hok.
  split; rewrite ?Hh, ?Hm, ?Hc, ?length_insert; try assumption.
  intros r m H. destruct (decide (self = r)) as [<-|Hne].
  - apply list_lookup_insert_Some in H as [(_ & <- & _)|[? _]]; [assumption | congruence].
  - rewrite list_lookup_insert_ne in H by assumption. eapply I5, H.
Qed.

Lemma Inv_new (w w' : World) (m : Motor) :
  Inv w → _count w ≠ 4 →
  heap w' = heap w ++ [m] → motors w' = motors w ++ [length (heap w)] →
  _count w' = _count w + 1 →
  motor_ok (length (heap w)) m →
  Inv w'.
Proof.
  intros [I1 I2 I3 I4 I5] Hne Hh Hm Hc Hok.
  split; rewrite ?Hh, ?Hm, ?Hc, ?length_app; cbn [length].
  - lia.
  - lia.
  - apply Forall_app. split.
    + eapply Forall_impl; [exact I3 | cbn; intros; lia].
    + constructor; [lia | constructor].
  - apply NoDup_app. repeat split; [assumption | | apply NoDup_singleton].
    intros x Hx Hx'. apply list_elem_of_singleton in Hx'. subst x.
    rewrite Forall_forall in I3. specialize (I3 _ Hx). lia.
  - intros r m0 H. apply lookup_snoc_Some in H as [[_ H]|[-> <-]].
    + eapply I5, H.
    + assumption.
Qed.

Lemma Inv_run (w : World) (e : event) :
  Inv w →
  (∀ self, receiver e = Some self → (self < length (heap w))%nat) →
  Inv (run e w).
Proof.
  intros I Hr. destruct e as [n f1 f2 r s mx|self p d f|self ser|self v|self|self| |self ch|ch v];
    cbn [run]; cbn in Hr.
  - destruct (init_run w n f1 f2 r s mx) as [[_ E]|[(_ & _ & E)|[(_ & _ & _ & E)|
      (Hc & Hs & Hm & w' & E & Hh & Hms & Hcnt)]]];
      unfold exec; rewrite E; cbn [snd]; try assumption.
    eapply Inv_new; try eassumption.
    repeat split; cbn; try apply Hs; try apply Hm; try discriminate.
    apply I.
  - destruct (lookup_lt_is_Some_2 (heap w) self (Hr _ eq_refl)) as [m Hm].
    destruct (enable_pwm_run w self m p d f Hm) as (w' & E & Hh & Hms & Hc).
    unfold exec. rewrite E. cbn [snd].
    eapply Inv_update; try eassumption.
    destruct (inv_objects _ I _ _ Hm) as (? & ? & ? & ? & ?).
    repeat split; cbn; try tauto; eauto.
  - destruct (lookup_lt_is_Some_2 (heap w) self (Hr _ eq_refl)) as [m Hm].
    unfold exec. rewrite (enable_serial_run w self m ser Hm). cbn [snd].
    eapply Inv_update; try eassumption; try reflexivity.
    destruct (inv_objects _ I _ _ Hm) as (? & ? & ? & ? & ?).
    repeat split; cbn; try tauto; eauto.
  - apply Inv_keeps, I. apply keeps_drive.
  - apply Inv_keeps, I. apply keeps_reset_driver.
  - eapply Inv_deregistered; [exact I | apply deregisters_shutdown].
  - eapply Inv_deregistered; [exact I | apply deregisters_shutdown_all].
  - apply Inv_keeps, I. apply keeps_catch_fault.
  - apply Inv_keeps, I. apply keeps_set_input.
Qed.

Lemma reachable_Inv (w : World) : reachable w → Inv w.
Proof.
  induction 1 as [|w e _ IH Hr]; [apply Inv_init | apply Inv_run; assumption].
Qed.

Lemma reachable_replay (es : list event) (w : World) :
  reachable w → valid_run es w = true → reachable (replay es w).
Proof.
  revert w. induction es as [|e es IH]; intros w Hw Hv; cbn in *; [assumption|].
  apply andb_true_iff in Hv as [Hr Hv]. apply IH; [|assumption].
  apply reachable_step; [assumption|].
  intros self E. rewrite E in Hr. apply bool_decide_eq_true in Hr. exact Hr.
Qed.

(** No more motors are registered than were ever constructed. *)
Lemma Inv_motors_count (w : World) : Inv w → Z.of_nat (length (motors w)) <= _count w.
Proof.
  intros [I1 I2 I3 I4 I5]. rewrite I1. apply inj_le.
  transitivity (length (seq 0 (length (heap w)))); [| rewrite length_seq; reflexivity].
  apply submseteq_length, NoDup_submseteq; [assumption|].
  intros x Hx. rewrite Forall_forall in I3. apply elem_of_seq. specialize (I3 _ Hx). lia.
Qed.

End Invariant.

(** ** The packet *)

Section Packet.

Lemma int_floor (x : Q) : (0 <= x)%Q → Py.int x = Qfloor x.
Proof.
  intros H. unfold Py.int, Qfloor. destruct x as [n d]. cbn.
  apply Z.quot_div_nonneg; [| lia].
  unfold Qle in H. cbn in H. lia.
Qed.

Lemma int_range (x : Q) (k : Z) : (0 <= x <= inject_Z k)%Q → 0 <= Py.int x <= k.
Proof.
  intros [H0 H1]. rewrite (int_floor _ H0). split.
  - rewrite <- (Qfloor_Z 0). apply Qfloor_resp_le, H0.
  - rewrite <- (Qfloor_Z k). apply Qfloor_resp_le, H1.
Qed.

Lemma small_cases (k : Z) (n : nat) :
  0 <= k < Z.of_nat n → k ∈ seqZ 0 (Z.of_nat n).
Proof. intros H. apply elem_of_seqZ. lia. Qed.

Lemma as_byte_layout (id neg mag : Z) :
  0 <= id < 4 → 0 <= neg < 2 → 0 <= mag < 32 →
  let b := MotorPacket.as_byte
             (MotorPacket.set_speed mag
                (MotorPacket.set_negative neg
                   (MotorPacket.set_motor_id id MotorPacket.new))) in
  b = Z.lor (Z.shiftl id 6) (Z.lor (Z.shiftl neg 5) mag) ∧
  Z.shiftr b 6 = id ∧
  Z.testbit b 5 = (neg =? 1) ∧
  Z.land b 31 = mag.
Proof.
  intros Hid Hneg Hmag.
  apply (small_cases id 4) in Hid. apply (small_cases neg 2) in Hneg.
  apply (small_cases mag 32) in Hmag.
  revert id Hid neg Hneg mag Hmag.
  refine (proj1 (Forall_forall _ _) _). 
  repeat (constructor; [refine (proj1 (Forall_forall _ _) _);
     repeat (constructor; [refine (proj1 (Forall_forall _ _) _);
        repeat (constructor; [vm_compute; auto|])|])|]); constructor.
Qed.
End Packet.

(** ** Serial transmission *)

Section Transmit.

Lemma magnitude_range (m : Motor) (speed : Q) :
  (0 <= start_input m <= 1)%Q → (0 <= max_speed m <= 1)%Q → (-1 <= speed <= 1)%Q →
  0 <= Py.int (Py.abs (_scale_speed m speed) * 31) < 32.
Proof.
  intros Hs Hm Hv.
  pose proof (scale_abs_le m speed Hs Hm Hv) as Hb.
  assert (H1 : (Py.round (max_speed m) 4 <= 1)%Q).
  { rewrite <- round4_1. apply round4_mono, Hm. }
  pose proof (Qabs_nonneg (_scale_speed m speed)) as H0.
  destruct (int_range (Py.abs (_scale_speed m speed) * 31) 31) as [? ?]; [| lia].
  unfold Py.abs. change (inject_Z 31) with 31%Q. split; lra.
Qed.

Lemma transmit_run (w : World) (self : ref) (m : Motor) (ser : Serial) (speed : Q) :
  heap w !! self = Some m → has_serial m = true → connection m = Some ser →
  drive self speed w =
    (Return tt,
     with_wire (λ bs, bs ++
       [(ser, MotorPacket.as_byte
                (MotorPacket.set_speed (Py.int (Py.abs (_scale_speed m speed) * 31))
                   (MotorPacket.set_negative (if Py.lt speed 0 then 1 else 0)
                      (MotorPacket.set_motor_id (motor_id m) MotorPacket.new))))]) w).
Proof.
  intros H Hs Hc. py_unfold.
  repeat (first [rewrite H | rewrite Hs | rewrite Hc | progress cbn]). reflexivity.
Qed.

Lemma scenario_B_magnitude (m : Motor) (speed : Q) :
  (start_input m == 2 # 10)%Q → (max_speed m == 8 # 10)%Q → (speed == -1)%Q →
  Py.int (Py.abs (_scale_speed m speed) * 31) = 24.
Proof.
  intros Hs Hm Hv.
  assert (Hneg : (speed < 0)%Q) by lra.
  assert (E : (_scale_speed m speed == - (8 # 10))%Q).
  { rewrite (scale_neg _ _ Hneg).
    assert (E : ((speed * (1 - start_input m) - start_input m) * max_speed m
                 == - (8 # 10))%Q) by (rewrite Hs, Hm, Hv; reflexivity).
    rewrite E. reflexivity. }
  assert (E' : (Py.abs (_scale_speed m speed) * 31 == 248 # 10)%Q).
  { unfold Py.abs. rewrite E. reflexivity. }
  rewrite int_floor by lra. rewrite E'. reflexivity.
Qed.

End Transmit.

(** ** The fault callback *)

Section Faults.

(** The callback logs at most one warning, chosen by the two levels. *)
Lemma catch_fault_run (w : World) (self : ref) (m : Motor) (channel : Z) :
  heap w !! self = Some m →
  let level pin := default LOW (in_level (gpio w) !! pin) in
  let warn f := with_log (λ rs, rs ++ [(WARNING, name m, fault_message f)]) w in
  _catch_fault self channel w =
    (Return tt,
     if level (pin_fault_1 m) && level (pin_fault_2 m) then warn Undervolt
     else if level (pin_fault_1 m) then warn Overtemp
     else if level (pin_fault_2 m) then warn ShortCircuitLatched
     else w).
Proof.
  intros H. cbv zeta. py_unfold. rewrite H. cbn. rewrite H.
  destruct (default LOW (in_level (gpio w) !! pin_fault_1 m)) eqn:E1; cbn;
    destruct (default LOW (in_level (gpio w) !! pin_fault_2 m)) eqn:E2; cbn;
    rewrite ?H, ?E1, ?E2; cbn; rewrite ?H, ?E1, ?E2; reflexivity.
Qed.

End Faults.

(** ** Construction and shutdown *)

Section Lifecycle.

Lemma bind_Return {A B} (c : M A) (k : A → M B) (w w' : World) (b : B) :
  bind c k w = (Return b, w') →
  ∃ a w1, c w = (Return a, w1) ∧ k a w1 = (Return b, w').
Proof.
  unfold bind. destruct (c w) as [[a|e] w1]; [eauto | discriminate].
Qed.

Lemma keeps_run {A} (c : M A) (w w' : World) (o : outcome A) :
  keeps_registry c → c w = (o, w') → registry w' = registry w.
Proof. intros H E. specialize (H w). unfold exec in H. rewrite E in H. exact H. Qed.

(** A shutdown that returns has removed the motor from the registry, and
    nothing else; the counter is not decremented. *)
Lemma shutdown_Return (w w' : World) (self : ref) :
  shutdown self w = (Return tt, w') →
  ∃ ms', list_remove self (motors w) = Some ms' ∧
    motors w' = ms' ∧ heap w' = heap w ∧ _count w' = _count w.
Proof.
  intros E. unfold shutdown in E.
  apply bind_Return in E as (? & w1 & E1 & E).
  apply bind_Return in E as (? & w2 & E2 & E).
  apply bind_Return in E as (? & w3 & E3 & E).
  apply bind_Return in E as (? & w4 & E4 & E).
  apply bind_Return in E as (? & w5 & E5 & E).
  apply (keeps_run _ _ _ _ (keeps_self_logger _ _ _)) in E1, E2, E4, E.
  apply (keeps_run _ _ _ _ (keeps_drive _ _)) in E3.
  assert (R4 : registry w4 = registry w) by congruence.
  unfold motors_remove in E5. rewrite bind_gets in E5.
  destruct (list_remove self (motors w4)) as [ms'|] eqn:Er; [|discriminate].
  injection E5 as E5. subst w5. unfold registry in *. cbn in E.
  injection R4 as R4h R4m R4c. injection E as Eh Em Ec.
  exists ms'. rewrite <- R4m. repeat split; congruence.
Qed.

(** Four registered motors: the counter has reached its bound. *)
Lemma full_registry (w : World) :
  reachable w → length (motors w) = 4%nat → _count w = 4.
Proof.
  intros Hw H4. apply reachable_Inv in Hw.
  pose proof (Inv_motors_count w Hw). pose proof (inv_capacity w Hw). lia.
Qed.

Lemma init_full (w : World) (n : string) (f1 f2 r : Z) (s mx : Q) :
  _count w = 4 → __init__ n f1 f2 r s mx w = (Raise TooManyMotorsError, w).
Proof. intros H. unfold __init__. rewrite bind_gets, H. reflexivity. Qed.

(** No event destroys an object or changes its identifier or calibration. *)
Lemma run_calibration (w : World) (e : event) (r : ref) (m : Motor) :
  (∀ self, receiver e = Some self → (self < length (heap w))%nat) →
  heap w !! r = Some m →
  ∃ m', heap (run e w) !! r = Some m' ∧
    start_input m' = start_input m ∧ max_speed m' = max_speed m ∧
    motor_id m' = motor_id m.
Proof.
  intros Hr H. unfold ref in *.
  assert (K : ∀ w', deregistered w w' → ∃ m', heap w' !! r = Some m' ∧
    start_input m' = start_input m ∧ max_speed m' = max_speed m ∧
    motor_id m' = motor_id m).
  { intros w' (Hh & _). rewrite Hh. eauto. }
  destruct e as [n f1 f2 rs s mx|self p d f|self ser|self v|self|self| |self ch|ch v];
    cbn [run]; cbn in Hr.
  - destruct (init_run w n f1 f2 rs s mx) as [[_ E]|[(_ & _ & E)|[(_ & _ & _ & E)|
      (_ & _ & _ & w' & E & Hh & _)]]];
      unfold exec; rewrite E; cbn [snd]; eauto.
    rewrite Hh, lookup_app_l by (eapply lookup_lt_Some, H). eauto.
  - destruct (lookup_lt_is_Some_2 (heap w) self (Hr _ eq_refl)) as [m0 Hm].
    destruct (enable_pwm_run w self m0 p d f Hm) as (w' & E & Hh & _).
    unfold exec. rewrite E. cbn [snd]. rewrite Hh.
    destruct (decide (self = r)) as [->|Hne].
    + rewrite list_lookup_insert_eq by (eapply lookup_lt_Some, H).
      rewrite H in Hm. injection Hm as <-. eauto.
    + rewrite list_lookup_insert_ne by assumption. eauto.
  - destruct (lookup_lt_is_Some_2 (heap w) self (Hr _ eq_refl)) as [m0 Hm].
    unfold exec. rewrite (enable_serial_run w self m0 ser Hm). cbn [snd heap with_heap].
    destruct (decide (self = r)) as [->|Hne].
    + rewrite list_lookup_insert_eq by (eapply lookup_lt_Some, H).
      rewrite H in Hm. injection Hm as <-. eauto.
    + rewrite list_lookup_insert_ne by assumption. eauto.
  - apply K, keeps_deregisters, keeps_drive.
  - apply K, keeps_deregisters, keeps_reset_driver.
  - apply K, deregisters_shutdown.
  - apply K, deregisters_shutdown_all.
  - apply K, keeps_deregisters, keeps_catch_fault.
  - apply K, keeps_deregisters, keeps_set_input.
Qed.

(** The scenarios are runs of the program. *)
Lemma reachable_scenario (es : list event) :
  valid_run es init = true → reachable (replay es init).
Proof. apply reachable_replay, reachable_init. Qed.

End Lifecycle.

(** * The specified behaviour, statement by statement *)

(** ** C1: the byte sent over the serial link *)

(** C1, as the code has it.  In every reachable state, for every motor that
    has its serial backend enabled and every requested speed in [-1, 1],
    [drive] returns normally after writing exactly one byte to the motor's
    serial port and changes nothing else; bits 7..6 of that byte are the
    motor's [motor_id], bit 5 is set iff the requested (unscaled) speed is
    negative, and bits 4..0 are [int(abs(scaled) * 31)], the product
    truncated toward zero, not rounded.  For [start_input = 0.2],
    [max_speed = 0.8] and [drive(-1.0)] the byte is
    [motor_id << 6 | 1 << 5 | 24]. *)
Theorem transmit_byte (w : World) (self : ref) (m : Motor) (speed : Q) :
  reachable w →
  heap w !! self = Some m →
  has_serial m = true →
  (-1 <= speed <= 1)%Q →
  ∃ (ser : Serial) (b : Z),
    connection m = Some ser ∧
    drive self speed w = (Return tt, with_wire (λ bs, bs ++ [(ser, b)]) w) ∧
    Z.shiftr b 6 = motor_id m ∧
    Z.testbit b 5 = Py.lt speed 0 ∧
    Z.land b 31 = Py.int (Py.abs (_scale_speed m speed) * 31) ∧
    ((start_input m == 2 # 10)%Q → (max_speed m == 8 # 10)%Q → (speed == -1)%Q →
       b = Z.lor (Z.shiftl (motor_id m) 6) (Z.lor (Z.shiftl 1 5) 24)).
Proof.
  intros Hw H Hs Hv. apply reachable_Inv in Hw.
  destruct (inv_objects _ Hw _ _ H) as (Hid & Hsi & Hms & Hser & _).
  destruct (Hser Hs) as [ser Hc].
  assert (Hrange : 0 <= motor_id m < 4).
  { pose proof (lookup_lt_Some _ _ _ H). pose proof (inv_count _ Hw).
    pose proof (inv_capacity _ Hw). lia. }
  pose proof (magnitude_range m speed Hsi Hms Hv) as Hmag.
  assert (Hneg : 0 <= (if Py.lt speed 0 then 1 else 0) < 2)
    by (destruct (Py.lt speed 0); lia).
  destruct (as_byte_layout _ _ _ Hrange Hneg Hmag) as (Hb & H6 & H5 & H0).
  eexists ser, _. split; [assumption|].
  split; [exact (transmit_run w self m ser speed H Hs Hc)|].
  split; [assumption|]. split; [rewrite H5; destruct (Py.lt speed 0); reflexivity|].
  split; [assumption|].
  intros E1 E2 E3. rewrite Hb.
  rewrite (scenario_B_magnitude m speed E1 E2 E3).
  assert (Hlt : Py.lt speed 0 = true) by (apply lt_true; lra).
  rewrite Hlt. reflexivity.
Qed.

Lemma transmit_byte_witness :
  reachable (replay scenario_B init) ∧
  heap (replay scenario_B init) !! 0%nat = Some left_motor ∧
  has_serial left_motor = true ∧
  (-1 <= -1 <= 1)%Q ∧
  ∃ (ser : Serial) (b : Z),
    drive 0%nat (-1) (replay scenario_B init) =
      (Return tt, with_wire (λ bs, bs ++ [(ser, b)]) (replay scenario_B init)) ∧
    b = Z.lor (Z.shiftl 0 6) (Z.lor (Z.shiftl 1 5) 24).
Proof.
  assert (H1 : reachable (replay scenario_B init))
    by (apply reachable_scenario; vm_compute; reflexivity).
  assert (H2 : heap (replay scenario_B init) !! 0%nat = Some left_motor)
    by (vm_compute; reflexivity).
  assert (H3 : has_serial left_motor = true) by reflexivity.
  assert (H4 : (-1 <= -1 <= 1)%Q) by (split; vm_compute; discriminate).
  split; [exact H1 |]. split; [exact H2 |]. split; [exact H3 |]. split; [exact H4 |].
  destruct (transmit_byte (replay scenario_B init) 0%nat left_motor (-1) H1 H2 H3 H4)
    as (ser & b & _ & E & _ & _ & _ & Hb).
  exists ser, b. split; [exact E |].
  apply Hb; reflexivity.
Defined.

(** The byte of scenario B is [0 << 6 | 1 << 5 | 24 = 56]: its magnitude
    field is 24, whereas [round(0.8 * 31)] is 25. *)
Lemma transmit_byte_counterexample :
  heap (replay scenario_B init) !! 0%nat = Some left_motor ∧
  (start_input left_motor == 2 # 10)%Q ∧ (max_speed left_motor == 8 # 10)%Q ∧
  wire (exec (drive 0%nat (-1)) (replay scenario_B init)) = [(7%nat, 56)] ∧
  Z.land 56 31 = 24 ∧
  Py.round_half_even (Py.abs (_scale_speed left_motor (-1)) * 31) = 25 ∧
  56 ≠ Z.lor (Z.shiftl (motor_id left_motor) 6) (Z.lor (Z.shiftl 1 5) 25).
Proof. vm_compute. repeat split; discriminate. Qed.

(** ** C2: capacity of the registry *)

(** C2, as the code has it.  In every reachable state with four registered
    motors, constructing another motor raises [TooManyMotorsError] whatever
    the arguments and leaves the whole state, the existing motors
    included, as it was; and once one of the four has been deregistered by
    a [shutdown] that returned, three motors remain registered but
    constructing a new one still raises [TooManyMotorsError] and changes
    nothing, because [Motor._count] is never decremented. *)
Theorem capacity (w : World) :
  reachable w →
  length (motors w) = 4%nat →
  (∀ n f1 f2 r s mx, __init__ n f1 f2 r s mx w = (Raise TooManyMotorsError, w)) ∧
  (∀ self w',
     self ∈ motors w →
     shutdown self w = (Return tt, w') →
     (self ∉ motors w') ∧ length (motors w') = 3%nat ∧
     ∀ n f1 f2 r s mx, __init__ n f1 f2 r s mx w' = (Raise TooManyMotorsError, w')).
Proof.
  intros Hw H4. pose proof (full_registry w Hw H4) as Hc.
  split; [intros; apply init_full, Hc |].
  intros self w' Hin E.
  apply shutdown_Return in E as (ms' & Hr & Hm & Hh & Hc').
  apply list_remove_Some in Hr as (_ & Hl & _ & Hnd).
  apply reachable_Inv in Hw.
  split; [rewrite Hm; apply Hnd, Hw |].
  split; [rewrite Hm; lia |].
  intros. apply init_full. congruence.
Qed.

Lemma capacity_witness :
  reachable (replay four_motors init) ∧
  length (motors (replay four_motors init)) = 4%nat ∧
  0%nat ∈ motors (replay four_motors init) ∧
  shutdown 0%nat (replay four_motors init) =
    (Return tt, exec (shutdown 0%nat) (replay four_motors init)) ∧
  __init__ "e" 13 14 15 default_start_input default_max_speed
      (replay four_motors init) =
    (Raise TooManyMotorsError, replay four_motors init) ∧
  length (motors (exec (shutdown 0%nat) (replay four_motors init))) = 3%nat ∧
  __init__ "e" 13 14 15 default_start_input default_max_speed
      (exec (shutdown 0%nat) (replay four_motors init)) =
    (Raise TooManyMotorsError, exec (shutdown 0%nat) (replay four_motors init)).
Proof.
  assert (H1 : reachable (replay four_motors init))
    by (apply reachable_scenario; vm_compute; reflexivity).
  assert (H2 : length (motors (replay four_motors init)) = 4%nat) by reflexivity.
  assert (H3 : 0%nat ∈ motors (replay four_motors init))
    by (vm_compute; apply list_elem_of_here).
  assert (H4 : shutdown 0%nat (replay four_motors init) =
    (Return tt, exec (shutdown 0%nat) (replay four_motors init)))
    by (vm_compute; reflexivity).
  destruct (capacity (replay four_motors init) H1 H2) as [Ha Hb].
  destruct (Hb 0%nat _ H3 H4) as (_ & Hl & Hc).
  split; [exact H1 |]. split; [exact H2 |]. split; [exact H3 |].
  split; [exact H4 |]. split; [exact (Ha _ _ _ _ _ _) |].
  split; [exact Hl |]. exact (Hc _ _ _ _ _ _).
Defined.

(** Four motors, the first one shut down: three are registered, and a new
    construction still fails. *)
Lemma capacity_counterexample :
  length (motors (replay four_motors init)) = 4%nat ∧
  fst (shutdown 0%nat (replay four_motors init)) = Return tt ∧
  motors (exec (shutdown 0%nat) (replay four_motors init)) = [1; 2; 3]%nat ∧
  fst (__init__ "e" 13 14 15 default_start_input default_max_speed
         (exec (shutdown 0%nat) (replay four_motors init)))
    = Raise TooManyMotorsError.
Proof. vm_compute. repeat split. Qed.

(** ** C3: shutting all motors down *)

(** C3 at two registered motors, both with a serial backend:
    [shutdown_all] returns normally and calls [gpio.cleanup()] once, but the
    loop removes motors from the list it iterates over, so only the first
    motor is driven to speed 0 (one byte, [0], on the wire) and
    deregistered; the second is never stopped and stays in the registry. *)
Theorem shutdown_all_two_motors :
  motors (replay scenario_C init) = [0; 1]%nat ∧
  wire (replay scenario_C init) = [] ∧
  cleanups (gpio (replay scenario_C init)) = 0%nat ∧
  fst (shutdown_all (replay scenario_C init)) = Return tt ∧
  motors (exec shutdown_all (replay scenario_C init)) = [1%nat] ∧
  wire (exec shutdown_all (replay scenario_C init)) = [(7%nat, 0)] ∧
  cleanups (gpio (exec shutdown_all (replay scenario_C init))) = 1%nat.
Proof. vm_compute. repeat split. Qed.

(** ** C4: the speed scaler *)

Section ScalerRange.
Local Open Scope Q_scope.

(** C4, as the code has it.  For every speed in [-1, 1] and every
    [start_input] and [max_speed] in [0, 1]: the scaler maps 0 to 0; the
    result for a nonzero speed never has the opposite sign (it is zero or
    has the sign of the speed, and it has the sign of the speed as soon as
    the unrounded value reaches 0.0001); and the absolute value of the
    result is at most [max_speed] rounded to four decimals, hence at most
    [max_speed + 0.00005]. *)
Theorem scale_speed_range (self : Motor) (speed : Q) :
  0 <= start_input self <= 1 →
  0 <= max_speed self <= 1 →
  -1 <= speed <= 1 →
  (speed == 0 → _scale_speed self speed == 0) ∧
  (0 < speed → 0 <= _scale_speed self speed) ∧
  (speed < 0 → _scale_speed self speed <= 0) ∧
  (1 # 10000 <=
     (Qabs speed * (1 - start_input self) + start_input self) * max_speed self →
   (0 < speed → 0 < _scale_speed self speed) ∧
   (speed < 0 → _scale_speed self speed < 0)) ∧
  Qabs (_scale_speed self speed) <= Py.round (max_speed self) 4 ∧
  Qabs (_scale_speed self speed) <= max_speed self + (1 # 20000).
Proof.
  intros Hs Hm Hv.
  pose proof (scale_abs_le self speed Hs Hm Hv) as Hb.
  split; [apply scale_zero_eq |].
  split; [intros H; apply scale_forward; auto; lra |].
  split.
  { intros H. rewrite (scale_backward _ _ H).
    destruct (scale_forward self (- speed)) as [? _]; auto; lra. }
  split.
  { intros Hraw. split; intros H.
    - rewrite Qabs_pos in Hraw by lra.
      pose proof (scale_forward_strict self speed H Hraw). lra.
    - rewrite Qabs_neg in Hraw by lra.
      assert (H' : 0 < - speed) by lra.
      pose proof (scale_forward_strict self (- speed) H' Hraw).
      rewrite (scale_backward _ _ H). lra. }
  split; [exact Hb |].
  destruct (round4_near (max_speed self)). lra.
Qed.

Lemma scale_speed_range_witness :
  0 <= start_input left_motor <= 1 ∧
  0 <= max_speed left_motor <= 1 ∧
  -1 <= 1 # 2 <= 1 ∧
  0 < _scale_speed left_motor (1 # 2) ∧
  Qabs (_scale_speed left_motor (1 # 2)) <= max_speed left_motor + (1 # 20000).
Proof.
  assert (H1 : 0 <= start_input left_motor <= 1) by (split; vm_compute; discriminate).
  assert (H2 : 0 <= max_speed left_motor <= 1) by (split; vm_compute; discriminate).
  assert (H3 : -1 <= 1 # 2 <= 1) by (split; vm_compute; discriminate).
  split; [exact H1 |]. split; [exact H2 |]. split; [exact H3 |].
  destruct (scale_speed_range left_motor (1 # 2) H1 H2 H3)
    as (_ & _ & _ & Hsign & _ & Hb).
  split; [| exact Hb].
  apply Hsign; [vm_compute; discriminate | reflexivity].
Defined.

(** With [max_speed = 0] the result for speed 1 is 0, which has no sign;
    with [max_speed = 0.00006] it is 0.0001, above [max_speed]. *)
Lemma scale_speed_counterexample :
  _scale_speed (mkMotor "m" 0 1 2 3 0 0 false false None None None None) 1 == 0 ∧
  ¬ (0 < _scale_speed (mkMotor "m" 0 1 2 3 0 0 false false None None None None) 1) ∧
  _scale_speed (mkMotor "m" 0 1 2 3 0 (6 # 100000) false false None None None None) 1
    == 1 # 10000 ∧
  ¬ (Qabs (_scale_speed
             (mkMotor "m" 0 1 2 3 0 (6 # 100000) false false None None None None) 1)
       <= 6 # 100000).
Proof.
  split; [reflexivity |]. split; [intros H; vm_compute in H; discriminate |].
  split; [reflexivity |]. intros H; vm_compute in H. apply H. reflexivity.
Qed.

End ScalerRange.

(** ** C5: classification of a fault *)



(** ** C6: driving without a backend *)

(** C6.  On a motor with neither backend enabled, [drive] raises
    [NoDriversError] for every speed; apart from the error line in the log
    the state is as before: registry, counter, the motor's attributes, the
    GPIO state and the serial link are unchanged, and a registered motor is
    still registered. *)
Theorem drive_no_drivers (w : World) (self : ref) (m : Motor) (speed : Q) :
  heap w !! self = Some m →
  has_serial m = false →
  has_pwm m = false →
  drive self speed w =
    (Raise (NoDriversError self),
     with_log (λ rs, rs ++
       [(ERROR, name m, "Cannot drive motor! No serial or PWM enabled.")]) w) ∧
  let w' := exec (drive self speed) w in
  motors w' = motors w ∧ _count w' = _count w ∧ heap w' = heap w ∧
  gpio w' = gpio w ∧ wire w' = wire w ∧
  (self ∈ motors w → self ∈ motors w').
Proof.
  intros H Hs Hp.
  assert (E : drive self speed w =
    (Raise (NoDriversError self),
     with_log (λ rs, rs ++
       [(ERROR, name m, "Cannot drive motor! No serial or PWM enabled.")]) w)).
  { py_unfold. repeat (first [rewrite H | rewrite Hs | rewrite Hp | progress cbn]).
    reflexivity. }
  split; [exact E |]. unfold exec. rewrite E. cbn. auto 10.
Qed.

Lemma drive_no_drivers_witness :
  heap (replay bare init) !! 0%nat = Some bare_motor ∧
  has_serial bare_motor = false ∧
  has_pwm bare_motor = false ∧
  fst (drive 0%nat (1 # 2) (replay bare init)) = Raise (NoDriversError 0%nat) ∧
  motors (exec (drive 0%nat (1 # 2)) (replay bare init)) = [0%nat].
Proof.
  assert (H1 : heap (replay bare init) !! 0%nat = Some bare_motor)
    by (vm_compute; reflexivity).
  assert (H2 : has_serial bare_motor = false) by reflexivity.
  assert (H3 : has_pwm bare_motor = false) by reflexivity.
  split; [exact H1 |]. split; [exact H2 |]. split; [exact H3 |].
  destruct (drive_no_drivers (replay bare init) 0%nat bare_motor (1 # 2) H1 H2 H3)
    as (E & Hm & _).
  split; [rewrite E; reflexivity |].
  cbv zeta in Hm. rewrite Hm. vm_compute. reflexivity.
Defined.

(** ** C7: priority of the serial backend *)

(** C7.  In every reachable state, on a motor with both backends enabled,
    [drive] returns normally for every speed in [-1, 1] after writing one
    byte to the motor's serial port; the GPIO state is untouched, so the
    duty cycle of the motor's PWM object and the level of its direction
    pin are what they were. *)
Theorem serial_priority (w : World) (self : ref) (m : Motor) (speed : Q) :
  reachable w →
  heap w !! self = Some m →
  has_serial m = true →
  has_pwm m = true →
  (-1 <= speed <= 1)%Q →
  ∃ (ser : Serial) (b : Z),
    connection m = Some ser ∧
    drive self speed w = (Return tt, with_wire (λ bs, bs ++ [(ser, b)]) w) ∧
    let w' := exec (drive self speed) w in
    wire w' = wire w ++ [(ser, b)] ∧
    gpio w' = gpio w ∧
    (∀ h, _pwm m = Some h → pwms (gpio w') !! h = pwms (gpio w) !! h) ∧
    (∀ d, pin_dir m = Some d → out_level (gpio w') !! d = out_level (gpio w) !! d).
Proof.
  intros Hw H Hs Hp _. apply reachable_Inv in Hw.
  destruct (inv_objects _ Hw _ _ H) as (_ & _ & _ & Hser & _).
  destruct (Hser Hs) as [ser Hc].
  pose proof (transmit_run w self m ser speed H Hs Hc) as E.
  eexists ser, _. split; [assumption |]. split; [exact E |].
  unfold exec. rewrite E. cbn. auto.
Qed.

Lemma serial_priority_witness :
  reachable (replay scenario_B init) ∧
  heap (replay scenario_B init) !! 0%nat = Some left_motor ∧
  has_serial left_motor = true ∧
  has_pwm left_motor = true ∧
  (-1 <= 1 # 2 <= 1)%Q ∧
  ∃ (ser : Serial) (b : Z),
    wire (exec (drive 0%nat (1 # 2)) (replay scenario_B init)) = [(ser, b)] ∧
    pwms (gpio (exec (drive 0%nat (1 # 2)) (replay scenario_B init))) !! 0%nat =
      Some (mkPWM 4 default_frequency (Some 0%Q)) ∧
    out_level (gpio (exec (drive 0%nat (1 # 2)) (replay scenario_B init))) !! 5 =
      Some LOW.
Proof.
  assert (H1 : reachable (replay scenario_B init))
    by (apply reachable_scenario; vm_compute; reflexivity).
  assert (H2 : heap (replay scenario_B init) !! 0%nat = Some left_motor)
    by (vm_compute; reflexivity).
  assert (H3 : has_serial left_motor = true) by reflexivity.
  assert (H4 : has_pwm left_motor = true) by reflexivity.
  assert (H5 : (-1 <= 1 # 2 <= 1)%Q) by (split; vm_compute; discriminate).
  split; [exact H1 |]. split; [exact H2 |]. split; [exact H3 |]. split; [exact H4 |].
  split; [exact H5 |].
  destruct (serial_priority (replay scenario_B init) 0%nat left_motor (1 # 2)
              H1 H2 H3 H4 H5) as (ser & b & _ & _ & Hw & _ & Hpwm & Hdir).
  exists ser, b. split; [exact Hw |].
  split; [rewrite (Hpwm 0%nat eq_refl) | rewrite (Hdir 5 eq_refl)];
    vm_compute; reflexivity.
Defined.

(** ** C8: validation of the calibration *)

(** C8, as the code has it.  In every reachable state, a construction whose
    [start_input] or [max_speed] is outside [0, 1] raises and leaves the
    state as it was, so no motor is created: the exception is
    [InvalidArgError], unless four motors have already been constructed,
    in which case the capacity check, which comes first, raises
    [TooManyMotorsError].  A construction that returns has stored the two
    values as they were given, both within [0, 1]; every existing motor
    has both values within [0, 1]; and no later event changes them. *)
Theorem init_validates (w : World) (n : string) (f1 f2 r : Z) (s mx : Q) :
  reachable w →
  (¬ (0 <= s <= 1)%Q ∨ ¬ (0 <= mx <= 1)%Q →
     ∃ e, __init__ n f1 f2 r s mx w = (Raise e, w) ∧
       (_count w = 4 → e = TooManyMotorsError) ∧
       (_count w ≠ 4 → ∃ msg, e = InvalidArgError msg)) ∧
  (∀ self w', __init__ n f1 f2 r s mx w = (Return self, w') →
     (0 <= s <= 1)%Q ∧ (0 <= mx <= 1)%Q ∧
     ∃ m, heap w' !! self = Some m ∧ start_input m = s ∧ max_speed m = mx) ∧
  (∀ self m, heap w !! self = Some m →
     (0 <= start_input m <= 1)%Q ∧ (0 <= max_speed m <= 1)%Q) ∧
  (∀ e self m,
     (∀ self', receiver e = Some self' → (self' < length (heap w))%nat) →
     heap w !! self = Some m →
     ∃ m', heap (run e w) !! self = Some m' ∧
       start_input m' = start_input m ∧ max_speed m' = max_speed m).
Proof.
  intros Hw.
  pose proof (init_run w n f1 f2 r s mx) as Hinit. cbv zeta in Hinit.
  split; [| split; [| split]].
  - intros Hbad.
    destruct Hinit as [[Hc E]|[(Hc & _ & E)|[(Hc & _ & _ & E)|(_ & ? & ? & _)]]];
      [| | | tauto]; eexists; (split; [exact E |]); split; intros; try congruence; eauto.
  - intros self w' E.
    destruct Hinit as [[Hc E']|[(Hc & _ & E')|[(Hc & _ & _ & E')|
      (_ & Hs & Hm & w1 & E' & Hh & _)]]]; rewrite E' in E; try discriminate.
    injection E as <- <-. split; [assumption |]. split; [assumption |].
    eexists. split; [rewrite Hh; apply list_lookup_middle; reflexivity |]. auto.
  - intros self m H. apply reachable_Inv in Hw.
    destruct (inv_objects _ Hw _ _ H) as (_ & ? & ? & _). auto.
  - intros e self m Hr H.
    destruct (run_calibration w e self m Hr H) as (m' & ? & ? & ? & _). eauto.
Qed.

Lemma init_validates_witness :
  reachable (replay bare init) ∧
  ¬ (0 <= 2 <= 1)%Q ∧
  __init__ "right" 4 5 6 2 default_max_speed (replay bare init) =
    (Raise (InvalidArgError "start_input should be between 0 and 1."),
     replay bare init) ∧
  (0 <= start_input bare_motor <= 1)%Q ∧ (0 <= max_speed bare_motor <= 1)%Q.
Proof.
  assert (H1 : reachable (replay bare init))
    by (apply reachable_scenario; vm_compute; reflexivity).
  assert (H2 : ¬ (0 <= 2 <= 1)%Q)
    by (intros [_ H]; vm_compute in H; apply H; reflexivity).
  split; [exact H1 |]. split; [exact H2 |].
  destruct (init_validates (replay bare init) "right" 4 5 6 2 default_max_speed H1)
    as (Hbad & _ & Hlife & _).
  split.
  - destruct (Hbad (or_introl H2)) as (e & E & _ & _). rewrite E.
    vm_compute in E. injection E as <-. reflexivity.
  - apply (Hlife 0%nat bare_motor). vm_compute. reflexivity.
Defined.

(** Once four motors have been constructed, a construction with
    [start_input = 2] raises [TooManyMotorsError], not [InvalidArgError]. *)
Lemma init_validates_counterexample :
  ¬ (0 <= 2 <= 1)%Q ∧
  __init__ "e" 13 14 15 2 default_max_speed (replay four_motors init) =
    (Raise TooManyMotorsError, replay four_motors init) ∧
  ∀ msg, TooManyMotorsError ≠ InvalidArgError msg.
Proof.
  split; [intros [_ H]; vm_compute in H; apply H; reflexivity |].
  split; [vm_compute; reflexivity | discriminate].
Qed.

(** ** C9: shutting down a motor that has no backend *)

(** C9.  On a registered motor with neither backend enabled, [shutdown]
    raises the [NoDriversError] of its [drive(0)] step: the log ends with
    the two lines that precede that step and the error line of [drive],
    the deregistration is not reached, and the motor is still in the
    registry, which is unchanged, as is everything but the log. *)
Theorem shutdown_no_drivers (w : World) (self : ref) (m : Motor) :
  heap w !! self = Some m →
  self ∈ motors w →
  has_serial m = false →
  has_pwm m = false →
  ∃ w', shutdown self w = (Raise (NoDriversError self), w') ∧
    motors w' = motors w ∧ self ∈ motors w' ∧
    _count w' = _count w ∧ heap w' = heap w ∧ gpio w' = gpio w ∧ wire w' = wire w ∧
    log w' = log w ++
      [(DEBUG, name m, "Shutting down motor");
       (DEBUG, name m, "Stopping motor");
       (ERROR, name m, "Cannot drive motor! No serial or PWM enabled.")].
Proof.
  intros H Hin Hs Hp. eexists. split.
  - unfold shutdown. py_unfold.
    repeat (first [rewrite H | rewrite Hs | rewrite Hp | progress cbn]). reflexivity.
  - cbn. rewrite <- !app_assoc. cbn. auto 10.
Qed.

Lemma shutdown_no_drivers_witness :
  heap (replay bare init) !! 0%nat = Some bare_motor ∧
  0%nat ∈ motors (replay bare init) ∧
  has_serial bare_motor = false ∧
  has_pwm bare_motor = false ∧
  fst (shutdown 0%nat (replay bare init)) = Raise (NoDriversError 0%nat) ∧
  motors (exec (shutdown 0%nat) (replay bare init)) = [0%nat].
Proof.
  assert (H1 : heap (replay bare init) !! 0%nat = Some bare_motor)
    by (vm_compute; reflexivity).
  assert (H2 : 0%nat ∈ motors (replay bare init))
    by (vm_compute; apply list_elem_of_here).
  assert (H3 : has_serial bare_motor = false) by reflexivity.
  assert (H4 : has_pwm bare_motor = false) by reflexivity.
  split; [exact H1 |]. split; [exact H2 |]. split; [exact H3 |]. split; [exact H4 |].
  destruct (shutdown_no_drivers (replay bare init) 0%nat bare_motor H1 H2 H3 H4)
    as (w' & E & Hm & _).
  unfold exec. rewrite E. cbn [fst snd]. split; [reflexivity |].
  rewrite Hm. vm_compute. reflexivity.
Defined.

(** ** C10: the fault callback when both lines are low *)

(** C10.  When both fault lines read low the callback returns with the
    state exactly as it was: nothing is logged.  Whatever the levels, the
    callback returns normally, and the objects, the registry, the counter,
    the GPIO state and the serial link are as before; the log is unchanged
    or longer by the one warning. *)
Theorem catch_fault_quiet (w : World) (self : ref) (m : Motor) (channel : Z) :
  heap w !! self = Some m →
  let level pin := default LOW (in_level (gpio w) !! pin) in
  (level (pin_fault_1 m) = LOW → level (pin_fault_2 m) = LOW →
     _catch_fault self channel w = (Return tt, w)) ∧
  ∃ w', _catch_fault self channel w = (Return tt, w') ∧
    heap w' = heap w ∧ motors w' = motors w ∧ _count w' = _count w ∧
    gpio w' = gpio w ∧ wire w' = wire w ∧ slept w' = slept w ∧
    (log w' = log w ∨ ∃ f, log w' = log w ++ [(WARNING, name m, fault_message f)]).
Proof.
  intros H. cbv zeta. rewrite (catch_fault_run w self m channel H). cbv zeta.
  split; [intros -> ->; reflexivity |].
  eexists. split; [reflexivity |].
  destruct (default LOW (in_level (gpio w) !! pin_fault_1 m)),
           (default LOW (in_level (gpio w) !! pin_fault_2 m)); cbn; eauto 12.
Qed.

Lemma catch_fault_quiet_witness :
  heap (replay (fault_lines LOW LOW) init) !! 0%nat = Some bare_motor ∧
  _catch_fault 0%nat 1 (replay (fault_lines LOW LOW) init) =
    (Return tt, replay (fault_lines LOW LOW) init).
Proof.
  assert (H : heap (replay (fault_lines LOW LOW) init) !! 0%nat = Some bare_motor)
    by (vm_compute; reflexivity).
  split; [exact H |].
  destruct (catch_fault_quiet _ 0%nat bare_motor 1 H) as (E & _).
  apply E; vm_compute; reflexivity.
Defined.

(** * Further properties *)

(** ** More on the speed scaler *)

Section ScalerMore.
Local Open Scope Q_scope.

Lemma scale_proper (self : Motor) (u v : Q) :
  u == v → _scale_speed self u == _scale_speed self v.
Proof.
  intros E. destruct (Q_dec v 0) as [[H|H]|H].
  - rewrite !scale_neg by lra. apply round_proper; [| reflexivity]. rewrite E. reflexivity.
  - rewrite !scale_pos by lra. apply round_proper; [| reflexivity]. rewrite E. reflexivity.
  - rewrite !scale_zero by lra. apply round_proper; [| reflexivity]. rewrite E. reflexivity.
Qed.

(** X1.  The scaler is odd: reversing the request reverses the result,
    whatever the calibration. *)
Theorem scale_speed_odd (self : Motor) (speed : Q) :
  _scale_speed self (- speed) == - _scale_speed self speed.
Proof.
  destruct (Q_dec speed 0) as [[H|H]|H].
  - rewrite (scale_backward self speed H). lra.
  - assert (H' : - speed < 0) by lra.
    rewrite (scale_backward self (- speed) H').
    assert (E : - - speed == speed) by lra.
    rewrite (scale_proper self _ _ E). reflexivity.
  - assert (H' : - speed == 0) by lra.
    rewrite (scale_zero_eq self _ H'), (scale_zero_eq self _ H). reflexivity.
Qed.

(** The value that [_scale_speed] rounds. *)
Lemma scale_unrounded (self : Motor) (speed : Q) :
  ∃ raw, _scale_speed self speed = Py.round raw 4 ∧
    (0 < speed → raw == (speed * (1 - start_input self) + start_input self) * max_speed self) ∧
    (speed < 0 → raw == (speed * (1 - start_input self) - start_input self) * max_speed self) ∧
    (speed == 0 → raw == 0).
Proof.
  destruct (Q_dec speed 0) as [[H|H]|H].
  - eexists. split; [apply scale_neg, H |].
    split; [intros; lra |]. split; [intros; reflexivity | intros; lra].
  - eexists. split; [apply scale_pos, H |].
    split; [intros; reflexivity |]. split; intros; lra.
  - eexists. split; [apply scale_zero, H |].
    split; [intros; lra |]. split; [intros; lra |]. intros _. rewrite H. lra.
Qed.

(** X2.  With [start_input] and [max_speed] in [0, 1], a larger request
    never gives a smaller scaled speed. *)
Theorem scale_speed_monotone (self : Motor) (u v : Q) :
  0 <= start_input self <= 1 →
  0 <= max_speed self <= 1 →
  u <= v →
  _scale_speed self u <= _scale_speed self v.
Proof.
  intros [Hs0 Hs1] [Hm0 Hm1] Huv.
  destruct (scale_unrounded self u) as (ru & -> & Pu & Nu & Zu).
  destruct (scale_unrounded self v) as (rv & -> & Pv & Nv & Zv).
  apply round4_mono.
  set (s := start_input self) in *. set (m := max_speed self) in *.
  assert (Hk : 0 <= (1 - s) * m) by nra.
  assert (Hsm : 0 <= s * m) by nra.
  assert (Hd : 0 <= (v - u) * ((1 - s) * m)) by (apply Qmult_le_0_compat; lra).
  destruct (Q_dec u 0) as [[Hu|Hu]|Hu], (Q_dec v 0) as [[Hv|Hv]|Hv];
    try lra;
    try rewrite (Pu Hu); try rewrite (Nu Hu); try rewrite (Zu Hu);
    try rewrite (Pv Hv); try rewrite (Nv Hv); try rewrite (Zv Hv);
    try (assert (Hu' : 0 <= (- u) * ((1 - s) * m)) by (apply Qmult_le_0_compat; lra));
    try (assert (Hv' : 0 <= v * ((1 - s) * m)) by (apply Qmult_le_0_compat; lra));
    lra.
Qed.

Lemma scale_speed_monotone_witness :
  0 <= start_input left_motor <= 1 ∧
  0 <= max_speed left_motor <= 1 ∧
  - (1 # 2) <= 1 # 2 ∧
  _scale_speed left_motor (- (1 # 2)) <= _scale_speed left_motor (1 # 2).
Proof.
  assert (H1 : 0 <= start_input left_motor <= 1) by (split; vm_compute; discriminate).
  assert (H2 : 0 <= max_speed left_motor <= 1) by (split; vm_compute; discriminate).
  assert (H3 : - (1 # 2) <= 1 # 2) by (vm_compute; discriminate).
  split; [exact H1 |]. split; [exact H2 |]. split; [exact H3 |].
  exact (scale_speed_monotone left_motor (- (1 # 2)) (1 # 2) H1 H2 H3).
Defined.

(** X3.  Dead-zone compensation: with [start_input] and [max_speed] in
    [0, 1], every forward request, however small, is scaled to at least
    [start_input * max_speed] rounded to four decimals, and the full
    request 1 is scaled to exactly [max_speed] rounded to four decimals. *)
Theorem scale_speed_dead_zone (self : Motor) (speed : Q) :
  0 <= start_input self <= 1 →
  0 <= max_speed self <= 1 →
  0 < speed <= 1 →
  Py.round (start_input self * max_speed self) 4 <= _scale_speed self speed ∧
  _scale_speed self speed <= _scale_speed self 1 ∧
  _scale_speed self 1 == Py.round (max_speed self) 4.
Proof.
  intros [Hs0 Hs1] [Hm0 Hm1] [Hv0 Hv1].
  assert (E1 : _scale_speed self 1 == Py.round (max_speed self) 4).
  { rewrite scale_pos by lra. apply round_proper; [lra | reflexivity]. }
  split; [| split; [| exact E1]].
  - rewrite (scale_pos _ _ Hv0). apply round4_mono.
    assert (Hk : 0 <= (1 - start_input self) * max_speed self)
      by (apply Qmult_le_0_compat; lra).
    assert (Hp : 0 <= speed * ((1 - start_input self) * max_speed self))
      by (apply Qmult_le_0_compat; lra).
    lra.
  - rewrite E1. apply scale_forward; split; assumption.
Qed.

Lemma scale_speed_dead_zone_witness :
  0 <= start_input left_motor <= 1 ∧
  0 <= max_speed left_motor <= 1 ∧
  0 < 1 # 100 <= 1 ∧
  16 # 100 <= _scale_speed left_motor (1 # 100).
Proof.
  assert (H1 : 0 <= start_input left_motor <= 1) by (split; vm_compute; discriminate).
  assert (H2 : 0 <= max_speed left_motor <= 1) by (split; vm_compute; discriminate).
  assert (H3 : 0 < 1 # 100 <= 1) by (split; [reflexivity | vm_compute; discriminate]).
  split; [exact H1 |]. split; [exact H2 |]. split; [exact H3 |].
  destruct (scale_speed_dead_zone left_motor (1 # 100) H1 H2 H3) as (H & _).
  exact H.
Defined.

(** X4.  The five-bit magnitude never overstates the scaled speed and is
    less than one step below it: [0 <= abs(scaled) * 31 - magnitude < 1];
    it is 31 only when the scaled speed is 1 or -1. *)
Theorem magnitude_quantization (self : Motor) (speed : Q) :
  0 <= start_input self <= 1 →
  0 <= max_speed self <= 1 →
  -1 <= speed <= 1 →
  let magnitude := Py.int (Py.abs (_scale_speed self speed) * 31) in
  inject_Z magnitude <= Py.abs (_scale_speed self speed) * 31 ∧
  Py.abs (_scale_speed self speed) * 31 < inject_Z magnitude + 1 ∧
  (magnitude = 31%Z ↔ Py.abs (_scale_speed self speed) == 1).
Proof.
  intros Hs Hm Hv. cbv zeta.
  pose proof (scale_abs_le self speed Hs Hm Hv) as Hb.
  assert (H1 : Py.round (max_speed self) 4 <= 1).
  { rewrite <- round4_1. apply round4_mono, Hm. }
  pose proof (Qabs_nonneg (_scale_speed self speed)) as H0.
  unfold Py.abs in *. set (a := Qabs (_scale_speed self speed)) in *.
  assert (Hn : 0 <= a * 31) by lra.
  rewrite (int_floor _ Hn).
  pose proof (Qfloor_le (a * 31)) as Hlo. pose proof (Qlt_floor (a * 31)) as Hhi.
  rewrite inject_Z_plus in Hhi. change (inject_Z 1) with 1 in Hhi.
  split; [exact Hlo |]. split; [exact Hhi |]. split.
  - intros E. rewrite E in Hlo. change (inject_Z 31) with 31 in Hlo. lra.
  - intros E. assert (E' : a * 31 == inject_Z 31) by (rewrite E; reflexivity).
    rewrite (Qfloor_comp _ _ E'). apply Qfloor_Z.
Qed.

Lemma magnitude_quantization_witness :
  0 <= start_input left_motor <= 1 ∧
  0 <= max_speed left_motor <= 1 ∧
  -1 <= -1 <= 1 ∧
  inject_Z (Py.int (Py.abs (_scale_speed left_motor (-1)) * 31))
    <= Py.abs (_scale_speed left_motor (-1)) * 31.
Proof.
  assert (H1 : 0 <= start_input left_motor <= 1) by (split; vm_compute; discriminate).
  assert (H2 : 0 <= max_speed left_motor <= 1) by (split; vm_compute; discriminate).
  assert (H3 : -1 <= -1 <= 1) by (split; vm_compute; discriminate).
  split; [exact H1 |]. split; [exact H2 |]. split; [exact H3 |].
  destruct (magnitude_quantization left_motor (-1) H1 H2 H3) as (H & _).
  exact H.
Defined.

End ScalerMore.

(** ** What the methods leave related *)

Section Respects.
Context (R : World → World → Prop) `{!PreOrder R}.

Lemma respects_ret {A} (a : A) : respects R (ret a).
Proof. intros w. reflexivity. Qed.

Lemma respects_raise {A} (e : exn) : respects R (@raise A e).
Proof. intros w. reflexivity. Qed.

Lemma respects_gets {A} (f : World → A) : respects R (gets f).
Proof. intros w. reflexivity. Qed.

Lemma respects_getattr {A} (self : ref) (field : Motor → A) :
  respects R (getattr self field).
Proof. intros w. unfold exec, getattr. destruct (heap w !! self); reflexivity. Qed.

Lemma respects_modify (f : World → World) :
  (∀ w, R w (f w)) → respects R (modify f).
Proof. intros H w. apply H. Qed.

Lemma respects_setattr (self : ref) (f : Motor → Motor) :
  (∀ w g, R w (with_heap g w)) → respects R (setattr self f).
Proof.
  intros H w. unfold exec, setattr. destruct (heap w !! self); cbn; [apply H | reflexivity].
Qed.

Lemma respects_bind {A B} (c : M A) (k : A → M B) :
  respects R c → (∀ a, respects R (k a)) → respects R (bind c k).
Proof.
  intros Hc Hk w. specialize (Hc w). unfold exec, bind in *.
  destruct (c w) as [[a|e] w1]; cbn in *.
  - etransitivity; [exact Hc | apply Hk].
  - exact Hc.
Qed.

Lemma respects_shutdown_loop (fuel i : nat) :
  (∀ self, respects R (shutdown self)) → respects R (shutdown_loop fuel i).
Proof.
  intros Hs. revert i. induction fuel as [|fuel IH]; intros i; cbn [shutdown_loop];
    (apply respects_bind; [apply respects_gets | intros ms]);
    destruct (ms !! i); try apply respects_ret.
  apply respects_bind; [apply Hs | intros _; apply IH].
Qed.

End Respects.

(** One step of the traversal of a method body. *)
Ltac respects_step leaf :=
  first
    [ apply respects_bind; [try typeclasses eauto | | intros ?]
    | apply respects_ret; typeclasses eauto
    | apply respects_raise; typeclasses eauto
    | apply respects_gets; typeclasses eauto
    | apply respects_getattr; typeclasses eauto
    | apply respects_modify; intros ?; leaf
    | apply respects_setattr; [typeclasses eauto | intros ? ?; leaf]
    | match goal with
      | |- respects _ (if ?b then _ else _) => destruct b
      | |- respects _ (match ?o with Some _ => _ | None => _ end) => destruct o
      end ].

Section Pwms.

Global Instance pwms_kept_preorder : PreOrder pwms_kept.
Proof. split; [intros w | intros w1 w2 w3]; unfold pwms_kept; lia. Qed.

Global Instance cleanups_kept_preorder : PreOrder cleanups_kept.
Proof. split; [intros w | intros w1 w2 w3]; unfold cleanups_kept; congruence. Qed.

Ltac pwms_leaf :=
  unfold pwms_kept; cbn; rewrite ?length_app, ?length_alter; cbn; lia.

Lemma pwms_init (n : string) (f1 f2 r : Z) (s mx : Q) :
  respects pwms_kept (__init__ n f1 f2 r s mx).
Proof. py_methods. repeat respects_step pwms_leaf. Qed.

Lemma pwms_drive (self : ref) (speed : Q) : respects pwms_kept (drive self speed).
Proof. py_methods. repeat respects_step pwms_leaf. Qed.

Lemma pwms_reset_driver (self : ref) : respects pwms_kept (reset_driver self).
Proof. py_methods. repeat respects_step pwms_leaf. Qed.

Lemma pwms_catch_fault (self : ref) (channel : Z) :
  respects pwms_kept (_catch_fault self channel).
Proof. py_methods. repeat respects_step pwms_leaf. Qed.

Lemma pwms_set_input (channel : Z) (value : bool) :
  respects pwms_kept (set_input channel value).
Proof. py_methods. repeat respects_step pwms_leaf. Qed.

Lemma pwms_shutdown (self : ref) : respects pwms_kept (shutdown self).
Proof. py_methods. repeat respects_step pwms_leaf. Qed.

Lemma pwms_shutdown_all : respects pwms_kept shutdown_all.
Proof.
  unfold shutdown_all, logging, gpio.cleanup.
  repeat first [apply respects_shutdown_loop; [typeclasses eauto | apply pwms_shutdown]
               | respects_step pwms_leaf].
Qed.

Lemma cleanups_shutdown (self : ref) : respects cleanups_kept (shutdown self).
Proof.
  py_methods. repeat respects_step ltac:(unfold cleanups_kept; cbn; reflexivity).
Qed.

End Pwms.

(** ** The PWM backend *)

Section PwmBackend.

(** [enable_pwm] in full: the motor's attributes, a new PWM object started
    at duty cycle 0 and the direction pin driven low. *)
Lemma enable_pwm_gpio (w : World) (self : ref) (m : Motor) (pwm direction : Z)
    (frequency : Q) :
  heap w !! self = Some m →
  let h := length (pwms (gpio w)) in
  let w' := exec (enable_pwm self pwm direction frequency) w in
  enable_pwm self pwm direction frequency w = (Return tt, w') ∧
  heap w' = <[self := set_has_pwm true (set__pwm h
                        (set_pin_dir direction (set_pin_pwm pwm m)))]> (heap w) ∧
  pwms (gpio w') = pwms (gpio w) ++ [mkPWM pwm frequency (Some 0%Q)] ∧
  out_level (gpio w') = <[direction := LOW]> (out_level (gpio w)) ∧
  motors w' = motors w ∧ _count w' = _count w ∧ wire w' = wire w.
Proof.
  intros H. pose proof (lookup_lt_Some _ _ _ H) as Hlt. cbv zeta. unfold exec.
  py_unfold. rewrite H. cbn.
  repeat (rewrite list_lookup_insert_eq by (rewrite ?length_insert; assumption); cbn).
  rewrite !list_insert_insert_eq.
  split; [reflexivity |]. split; [reflexivity |]. split; [| auto].
  rewrite alter_app_r_alt by lia. rewrite Nat.sub_diag. reflexivity.
Qed.

Lemma pwm_live_kept (w w' : World) :
  pwm_live w → heap w' = heap w → pwms_kept w w' → pwm_live w'.
Proof.
  intros L Hh Hp r m h Hm Hpw. rewrite Hh in Hm.
  specialize (L r m h Hm Hpw). unfold pwms_kept in Hp. lia.
Qed.

Lemma keeps_heap {A} (c : M A) (w : World) :
  keeps_registry c → heap (exec c w) = heap w.
Proof. intros K. specialize (K w). unfold registry in K. congruence. Qed.

Lemma pwm_live_run (w : World) (e : event) :
  pwm_live w →
  (∀ self, receiver e = Some self → (self < length (heap w))%nat) →
  pwm_live (run e w).
Proof.
  intros L Hr. unfold ref in *.
  destruct e as [n f1 f2 r s mx|self p d f|self ser|self v|self|self| |self ch|ch v];
    cbn [run]; cbn in Hr.
  - pose proof (pwms_init n f1 f2 r s mx w) as Hp.
    destruct (init_run w n f1 f2 r s mx) as [[_ E]|[(_ & _ & E)|[(_ & _ & _ & E)|
      (_ & _ & _ & w' & E & Hh & _)]]];
      unfold exec in *; rewrite E in *; cbn [snd] in *; try assumption.
    intros r0 m h Hm Hpw. rewrite Hh in Hm.
    apply lookup_snoc_Some in Hm as [[_ Hm]|[_ <-]]; [| discriminate].
    specialize (L r0 m h Hm Hpw). unfold pwms_kept in Hp. lia.
  - destruct (lookup_lt_is_Some_2 (heap w) self (Hr _ eq_refl)) as [m0 Hm0].
    destruct (enable_pwm_gpio w self m0 p d f Hm0) as (_ & Hh & Hp & _).
    intros r0 m h Hm Hpw. rewrite Hh in Hm. rewrite Hp, length_app. cbn.
    destruct (decide (self = r0)) as [->|Hne].
    + rewrite list_lookup_insert_eq in Hm by (eapply lookup_lt_Some, Hm0).
      injection Hm as <-. cbn in Hpw. injection Hpw as <-. lia.
    + rewrite list_lookup_insert_ne in Hm by assumption.
      specialize (L r0 m h Hm Hpw). lia.
  - destruct (lookup_lt_is_Some_2 (heap w) self (Hr _ eq_refl)) as [m0 Hm0].
    unfold exec. rewrite (enable_serial_run w self m0 ser Hm0). cbn [snd].
    intros r0 m h Hm Hpw. cbn in Hm |- *.
    destruct (decide (self = r0)) as [->|Hne].
    + rewrite list_lookup_insert_eq in Hm by (eapply lookup_lt_Some, Hm0).
      injection Hm as <-. cbn in Hpw. exact (L r0 m0 h Hm0 Hpw).
    + rewrite list_lookup_insert_ne in Hm by assumption. exact (L r0 m h Hm Hpw).
  - eapply pwm_live_kept; [exact L | apply keeps_heap, keeps_drive | apply pwms_drive].
  - eapply pwm_live_kept; [exact L | apply keeps_heap, keeps_reset_driver | apply pwms_reset_driver].
  - eapply pwm_live_kept; [exact L | apply (deregisters_shutdown self w) | apply pwms_shutdown].
  - eapply pwm_live_kept; [exact L | apply (deregisters_shutdown_all w) | apply pwms_shutdown_all].
  - eapply pwm_live_kept; [exact L | apply keeps_heap, keeps_catch_fault | apply pwms_catch_fault].
  - eapply pwm_live_kept; [exact L | apply keeps_heap, keeps_set_input | apply pwms_set_input].
Qed.

Lemma reachable_pwm_live (w : World) : reachable w → pwm_live w.
Proof.
  induction 1 as [|w e _ IH Hr]; [| apply pwm_live_run; assumption].
  intros r m h H. cbn in H. rewrite lookup_nil in H. discriminate.
Qed.

(** [drive] through the PWM backend. *)
Lemma pwm_drive_run (w : World) (self : ref) (m : Motor) (d : Z) (h : nat) (speed : Q) :
  heap w !! self = Some m → has_serial m = false → has_pwm m = true →
  pin_dir m = Some d → _pwm m = Some h →
  drive self speed w =
    (Return tt,
     with_gpio (λ g,
       mkGPIO (channels g) (out_level g) (in_level g) (callbacks g)
         (alter (λ p, mkPWM (pwm_channel p) (pwm_frequency p)
                        (Some (Py.abs (_scale_speed m speed) * 100)%Q)) h (pwms g))
         (cleanups g))
       (with_gpio (λ g,
          mkGPIO (channels g)
            (<[d := if Py.lt (_scale_speed m speed) 0 then LOW else HIGH]> (out_level g))
            (in_level g) (callbacks g) (pwms g) (cleanups g)) w)).
Proof.
  intros H Hs Hp Hd Hh. py_unfold.
  repeat (first [rewrite H | rewrite Hs | rewrite Hp | rewrite Hd | rewrite Hh
                | progress cbn]).
  reflexivity.
Qed.

(** X5.  In every reachable state, on a motor that has only the PWM
    backend enabled and for every speed in [-1, 1], [drive] returns
    normally; it drives the direction pin low if the scaled speed is
    negative and high otherwise, and sets the duty cycle of the motor's PWM
    object to [abs(scaled) * 100], a value between 0 and 100; the
    channel and frequency of that object, the serial link, the log and the
    registry are unchanged. *)
Theorem pwm_drive (w : World) (self : ref) (m : Motor) (speed : Q) :
  reachable w →
  heap w !! self = Some m →
  has_serial m = false →
  has_pwm m = true →
  (-1 <= speed <= 1)%Q →
  let w' := exec (drive self speed) w in
  ∃ (d : Z) (h : nat) (p : PWM),
    pin_dir m = Some d ∧ _pwm m = Some h ∧ pwms (gpio w) !! h = Some p ∧
    drive self speed w = (Return tt, w') ∧
    out_level (gpio w') !! d =
      Some (if Py.lt (_scale_speed m speed) 0 then LOW else HIGH) ∧
    pwms (gpio w') !! h =
      Some (mkPWM (pwm_channel p) (pwm_frequency p)
              (Some (Py.abs (_scale_speed m speed) * 100)%Q)) ∧
    (0 <= Py.abs (_scale_speed m speed) * 100 <= 100)%Q ∧
    wire w' = wire w ∧ log w' = log w ∧ registry w' = registry w.
Proof.
  intros Hw H Hs Hp Hv. cbv zeta.
  pose proof (reachable_pwm_live w Hw) as L. apply reachable_Inv in Hw.
  destruct (inv_objects _ Hw _ _ H) as (_ & Hsi & Hms & _ & Hpwm).
  destruct (Hpwm Hp) as [[d Hd] [h Hh]].
  destruct (lookup_lt_is_Some_2 _ _ (L _ _ _ H Hh)) as [p Hpl].
  exists d, h, p. split; [assumption |]. split; [assumption |]. split; [assumption |].
  unfold exec. rewrite (pwm_drive_run w self m d h speed H Hs Hp Hd Hh). cbn.
  split; [reflexivity |]. split; [apply lookup_insert_eq |].
  split; [rewrite list_lookup_alter_eq, Hpl; reflexivity |].
  split; [| auto].
  pose proof (scale_abs_le m speed Hsi Hms Hv) as Hb.
  assert (H1 : (Py.round (max_speed m) 4 <= 1)%Q).
  { rewrite <- round4_1. apply round4_mono, Hms. }
  pose proof (Qabs_nonneg (_scale_speed m speed)) as H0.
  unfold Py.abs. split; lra.
Qed.

Lemma pwm_drive_witness :
  reachable (replay scenario_A init) ∧
  heap (replay scenario_A init) !! 0%nat =
    Some (mkMotor "left" 0 1 2 3 (2 # 10) (8 # 10) false true None (Some 4) (Some 5)
            (Some 0%nat)) ∧
  (-1 <= 1 # 2 <= 1)%Q ∧
  out_level (gpio (exec (drive 0%nat (1 # 2)) (replay scenario_A init))) !! 5 =
    Some HIGH ∧
  ∃ dc, duty_cycle <$> pwms (gpio (exec (drive 0%nat (1 # 2))
                                     (replay scenario_A init))) !! 0%nat
          = Some (Some dc) ∧ (dc == 48)%Q.
Proof.
  assert (H1 : reachable (replay scenario_A init))
    by (apply reachable_scenario; vm_compute; reflexivity).
  assert (H2 : heap (replay scenario_A init) !! 0%nat =
    Some (mkMotor "left" 0 1 2 3 (2 # 10) (8 # 10) false true None (Some 4) (Some 5)
            (Some 0%nat))) by (vm_compute; reflexivity).
  assert (H3 : (-1 <= 1 # 2 <= 1)%Q) by (split; vm_compute; discriminate).
  split; [exact H1 |]. split; [exact H2 |]. split; [exact H3 |].
  destruct (pwm_drive (replay scenario_A init) 0%nat _ (1 # 2) H1 H2 eq_refl eq_refl H3)
    as (d & h & p & Hd & Hh & _ & _ & Ho & Hdc & _).
  injection Hd as <-. injection Hh as <-.
  split; [rewrite Ho; vm_compute; reflexivity |].
  eexists. rewrite Hdc. split; [reflexivity | vm_compute; reflexivity].
Defined.

(** X6.  In every reachable state [drive] on an existing motor returns
    normally for every speed in [-1, 1] when one of the two backends is
    enabled, so that within that range no exception, such as a missing
    attribute, can occur; it raises [NoDriversError] for every speed when
    no backend is enabled; and whatever the speed and the outcome, the
    objects, the registry and the counter are unchanged. *)
Theorem drive_outcome (w : World) (self : ref) (m : Motor) (speed : Q) :
  reachable w →
  heap w !! self = Some m →
  ((-1 <= speed <= 1)%Q → has_serial m || has_pwm m = true →
     fst (drive self speed w) = Return tt) ∧
  (has_serial m || has_pwm m = false →
     fst (drive self speed w) = Raise (NoDriversError self)) ∧
  registry (exec (drive self speed) w) = registry w.
Proof.
  intros Hw H. apply reachable_Inv in Hw.
  destruct (inv_objects _ Hw _ _ H) as (_ & _ & _ & Hser & Hpwm).
  split; [| split; [| apply keeps_drive]].
  - intros _ Hb. destruct (has_serial m) eqn:Hs.
    + destruct (Hser eq_refl) as [ser Hc].
      rewrite (transmit_run w self m ser speed H Hs Hc). reflexivity.
    + cbn in Hb. destruct (Hpwm Hb) as [[d Hd] [h Hh]].
      rewrite (pwm_drive_run w self m d h speed H Hs Hb Hd Hh). reflexivity.
  - intros Hb. apply orb_false_iff in Hb as [Hs Hp]. py_unfold.
    repeat (first [rewrite H | rewrite Hs | rewrite Hp | progress cbn]). reflexivity.
Qed.

Lemma drive_outcome_witness :
  reachable (replay scenario_A init) ∧
  (-1 <= 1 # 2 <= 1)%Q ∧
  fst (drive 0%nat (1 # 2) (replay scenario_A init)) = Return tt.
Proof.
  assert (H1 : reachable (replay scenario_A init))
    by (apply reachable_scenario; vm_compute; reflexivity).
  assert (H3 : (-1 <= 1 # 2 <= 1)%Q) by (split; vm_compute; discriminate).
  split; [exact H1 |]. split; [exact H3 |].
  assert (H2 : heap (replay scenario_A init) !! 0%nat =
    Some (mkMotor "left" 0 1 2 3 (2 # 10) (8 # 10) false true None (Some 4) (Some 5)
            (Some 0%nat))) by (vm_compute; reflexivity).
  destruct (drive_outcome (replay scenario_A init) 0%nat _ (1 # 2) H1 H2) as (H & _).
  apply H; [exact H3 | reflexivity].
Defined.

End PwmBackend.

(** ** Shutting motors down *)

Section Shutdown.

Lemma zero_scaled (m : Motor) : (_scale_speed m 0 == 0)%Q.
Proof. apply scale_zero_eq. reflexivity. Qed.

Lemma zero_magnitude (m : Motor) : Py.int (Py.abs (_scale_speed m 0) * 31) = 0.
Proof.
  assert (E : (Py.abs (_scale_speed m 0) * 31 == 0)%Q).
  { unfold Py.abs. rewrite (zero_scaled m). reflexivity. }
  rewrite int_floor by (rewrite E; apply Qle_refl).
  rewrite (Qfloor_comp _ _ E). reflexivity.
Qed.

(** The packet of a zero request is the motor's identifier in bits 7..6
    and nothing else. *)
Lemma zero_byte (m : Motor) :
  0 <= motor_id m < 4 →
  MotorPacket.as_byte
    (MotorPacket.set_speed (Py.int (Py.abs (_scale_speed m 0) * 31))
       (MotorPacket.set_negative (if Py.lt 0 0 then 1 else 0)
          (MotorPacket.set_motor_id (motor_id m) MotorPacket.new)))
  = 64 * motor_id m.
Proof.
  intros Hid. rewrite zero_magnitude.
  change (Py.lt 0 0) with false. cbv iota.
  destruct (as_byte_layout (motor_id m) 0 0 Hid) as (E & _); [lia | lia |].
  rewrite E. change (Z.lor (0 ≪ 5) 0) with 0.
  rewrite Z.lor_0_r, Z.shiftl_mul_pow2 by lia. lia.
Qed.

Lemma list_remove_middle (x : ref) (pre post : list ref) :
  x ∉ pre → list_remove x (pre ++ x :: post) = Some (pre ++ post).
Proof.
  induction pre as [|y pre IH]; intros Hx; cbn.
  - rewrite decide_True by reflexivity. reflexivity.
  - apply not_elem_of_cons in Hx as [Hne Hx].
    rewrite decide_False by assumption. rewrite (IH Hx). reflexivity.
Qed.

Lemma filter_absent (x : ref) (l : list ref) :
  x ∉ l → filter (λ r, r ≠ x) l = l.
Proof.
  induction l as [|y l IH]; intros Hx; [reflexivity |].
  apply not_elem_of_cons in Hx as [Hne Hx].
  rewrite filter_cons_True by (intros ->; apply Hne; reflexivity).
  rewrite (IH Hx). reflexivity.
Qed.

Lemma list_remove_filter (x : ref) (l l' : list ref) :
  NoDup l → list_remove x l = Some l' → l' = filter (λ r, r ≠ x) l.
Proof.
  revert l'. induction l as [|y l IH]; intros l' Hnd H; cbn in H; [discriminate |].
  apply NoDup_cons in Hnd as [Hy Hnd].
  destruct (decide (x = y)) as [->|Hne].
  - injection H as <-. rewrite filter_cons_False by (intros Hc; apply Hc; reflexivity).
    symmetry. apply filter_absent, Hy.
  - destruct (list_remove x l) as [l0|] eqn:E; cbn in H; [| discriminate].
    injection H as <-. rewrite filter_cons_True by (intros ->; apply Hne; reflexivity).
    f_equal. apply IH; [assumption | reflexivity].
Qed.

(** A shutdown of a drivable motor gets as far as the deregistration, with
    the objects, the counter and the cleanup count as they were. *)
Lemma shutdown_drivable (w : World) (self : ref) (m : Motor) :
  heap w !! self = Some m →
  drivable m →
  ∃ w',
    shutdown self w =
      match list_remove self (motors w) with
      | Some ms' => (Return tt, w')
      | None => (Raise (ValueError "list.remove(x): x not in list"), w')
      end ∧
    motors w' = default (motors w) (list_remove self (motors w)) ∧
    heap w' = heap w ∧ _count w' = _count w ∧
    cleanups (gpio w') = cleanups (gpio w) ∧
    (∀ ser, has_serial m = true → connection m = Some ser →
       wire w' = wire w ++
         [(ser, MotorPacket.as_byte
            (MotorPacket.set_speed (Py.int (Py.abs (_scale_speed m 0) * 31))
               (MotorPacket.set_negative (if Py.lt 0 0 then 1 else 0)
                  (MotorPacket.set_motor_id (motor_id m) MotorPacket.new))))]) ∧
    (∀ d h, has_serial m = false → pin_dir m = Some d → _pwm m = Some h →
       wire w' = wire w ∧
       out_level (gpio w') !! d =
         Some (if Py.lt (_scale_speed m 0) 0 then LOW else HIGH) ∧
       pwms (gpio w') !! h =
         (λ p, mkPWM (pwm_channel p) (pwm_frequency p)
                 (Some (Py.abs (_scale_speed m 0) * 100)%Q)) <$> pwms (gpio w) !! h).
Proof.
  intros H [[Hs [ser Hc]]|(Hs & Hp & [d Hd] & [h Hh])].
  - destruct (list_remove self (motors w)) as [ms'|] eqn:Er.
    + eexists. split.
      { unfold shutdown. py_unfold.
        repeat (first [rewrite H | rewrite Hs | rewrite Hc | rewrite Er | progress cbn]).
        reflexivity. }
      cbn. split_and!; try reflexivity; intros; congruence.
    + eexists. split.
      { unfold shutdown. py_unfold.
        repeat (first [rewrite H | rewrite Hs | rewrite Hc | rewrite Er | progress cbn]).
        reflexivity. }
      cbn. split_and!; try reflexivity; intros; congruence.
  - destruct (list_remove self (motors w)) as [ms'|] eqn:Er.
    + eexists. split.
      { unfold shutdown. py_unfold.
        repeat (first [rewrite H | rewrite Hs | rewrite Hp | rewrite Hd | rewrite Hh
                      | rewrite Er | progress cbn]).
        reflexivity. }
      cbn. split_and!; try reflexivity; try (intros; congruence).
      intros d' h' _ Hd' Hh'. rewrite Hd in Hd'. rewrite Hh in Hh'.
      injection Hd' as <-. injection Hh' as <-. split; [reflexivity |].
      split; [apply lookup_insert_eq | apply list_lookup_alter_eq].
    + eexists. split.
      { unfold shutdown. py_unfold.
        repeat (first [rewrite H | rewrite Hs | rewrite Hp | rewrite Hd | rewrite Hh
                      | rewrite Er | progress cbn]).
        reflexivity. }
      cbn. split_and!; try reflexivity; try (intros; congruence).
      intros d' h' _ Hd' Hh'. rewrite Hd in Hd'. rewrite Hh in Hh'.
      injection Hd' as <-. injection Hh' as <-. split; [reflexivity |].
      split; [apply lookup_insert_eq | apply list_lookup_alter_eq].
Qed.

End Shutdown.

Section ShutdownProperties.

Lemma Inv_drivable (w : World) (r : ref) (m : Motor) :
  Inv w → heap w !! r = Some m → has_serial m || has_pwm m = true → drivable m.
Proof.
  intros I H Hb. destruct (inv_objects _ I _ _ H) as (_ & _ & _ & Hser & Hpwm).
  destruct (has_serial m) eqn:Hs; [left; auto |].
  right. cbn in Hb. destruct (Hpwm Hb). auto.
Qed.

(** X7.  In every reachable state, [shutdown] on a registered motor with
    a backend returns normally: it removes that motor and only that motor
    from the registry, keeping the order of the others, and leaves the
    objects and the counter as they were.  The motor has been stopped: on
    a serial backend the byte [64 * motor_id] (zero magnitude, sign bit
    clear) has been written to its port and nothing else; on a PWM
    backend the direction pin is high and the duty cycle is 0.  A second
    [shutdown] of the same motor raises [ValueError]. *)
Theorem shutdown_registered (w : World) (self : ref) (m : Motor) :
  reachable w →
  heap w !! self = Some m →
  self ∈ motors w →
  has_serial m || has_pwm m = true →
  ∃ w', shutdown self w = (Return tt, w') ∧
    motors w' = filter (λ r, r ≠ self) (motors w) ∧
    heap w' = heap w ∧ _count w' = _count w ∧
    (has_serial m = true →
       ∃ ser, connection m = Some ser ∧
         wire w' = wire w ++ [(ser, 64 * motor_id m)]) ∧
    (has_serial m = false →
       wire w' = wire w ∧
       ∃ d h p dc, pin_dir m = Some d ∧ _pwm m = Some h ∧
         out_level (gpio w') !! d = Some HIGH ∧
         pwms (gpio w') !! h = Some (mkPWM (pwm_channel p) (pwm_frequency p) (Some dc)) ∧
         (dc == 0)%Q) ∧
    fst (shutdown self w') = Raise (ValueError "list.remove(x): x not in list").
Proof.
  intros Hw H Hin Hb.
  pose proof (reachable_pwm_live w Hw) as L. apply reachable_Inv in Hw.
  pose proof (Inv_drivable w self m Hw H Hb) as Hd.
  destruct (shutdown_drivable w self m H Hd) as (w' & E & Hm & Hh & Hc & _ & Hser & Hpwm).
  destruct (list_remove self (motors w)) as [ms'|] eqn:Er;
    [| apply list_remove_None in Er; contradiction].
  cbn in Hm. apply (list_remove_filter _ _ _ (inv_nodup _ Hw)) in Er. subst ms'.
  exists w'. split; [exact E |]. split; [exact Hm |]. split; [exact Hh |].
  split; [exact Hc |].
  assert (Hid : 0 <= motor_id m < 4).
  { destruct (inv_objects _ Hw _ _ H) as (Hid & _).
    pose proof (lookup_lt_Some _ _ _ H). pose proof (inv_count _ Hw).
    pose proof (inv_capacity _ Hw). lia. }
  split; [| split].
  - intros Hs. destruct Hd as [[_ [ser Hcn]]|[Hs' _]]; [| congruence].
    exists ser. split; [exact Hcn |]. rewrite (Hser ser Hs Hcn), (zero_byte m Hid).
    reflexivity.
  - intros Hs. destruct Hd as [[Hs' _]|(_ & Hp & [d Hdir] & [h Hpw])]; [congruence |].
    destruct (Hpwm d h Hs Hdir Hpw) as (Hwire & Hout & Hduty).
    split; [exact Hwire |].
    destruct (lookup_lt_is_Some_2 _ _ (L _ _ _ H Hpw)) as [p Hp'].
    exists d, h, p, (Py.abs (_scale_speed m 0) * 100)%Q.
    split; [exact Hdir |]. split; [exact Hpw |]. split; [| split].
    + rewrite Hout.
      assert (Hlt : Py.lt (_scale_speed m 0) 0 = false)
        by (apply lt_false; rewrite (zero_scaled m); apply Qle_refl).
      rewrite Hlt. reflexivity.
    + rewrite Hduty, Hp'. reflexivity.
    + unfold Py.abs. rewrite (zero_scaled m). reflexivity.
  - assert (H' : heap w' !! self = Some m) by (rewrite Hh; exact H).
    destruct (shutdown_drivable w' self m H' Hd) as (w2 & E2 & _).
    assert (Hnot : self ∉ motors w').
    { rewrite Hm. intros Hc'. apply list_elem_of_filter in Hc' as [Hne _].
      apply Hne. reflexivity. }
    apply list_remove_None in Hnot. rewrite Hnot in E2. rewrite E2. reflexivity.
Qed.

Lemma shutdown_registered_witness :
  reachable (replay four_motors init) ∧
  heap (replay four_motors init) !! 0%nat = Some motor_a ∧
  0%nat ∈ motors (replay four_motors init) ∧
  has_serial motor_a || has_pwm motor_a = true ∧
  ∃ w', shutdown 0%nat (replay four_motors init) = (Return tt, w') ∧
    motors w' = [1; 2; 3]%nat ∧ wire w' = [(7%nat, 0)].
Proof.
  assert (H1 : reachable (replay four_motors init))
    by (apply reachable_scenario; vm_compute; reflexivity).
  assert (H2 : heap (replay four_motors init) !! 0%nat = Some motor_a)
    by (vm_compute; reflexivity).
  assert (H3 : 0%nat ∈ motors (replay four_motors init))
    by (vm_compute; apply list_elem_of_here).
  assert (H4 : has_serial motor_a || has_pwm motor_a = true) by reflexivity.
  split; [exact H1 |]. split; [exact H2 |]. split; [exact H3 |]. split; [exact H4 |].
  destruct (shutdown_registered (replay four_motors init) 0%nat motor_a H1 H2 H3 H4)
    as (w' & E & Hm & _ & _ & Hser & _).
  exists w'. split; [exact E |]. split; [rewrite Hm; vm_compute; reflexivity |].
  destruct (Hser eq_refl) as (ser & Hc & Hwire). injection Hc as <-.
  rewrite Hwire. vm_compute. reflexivity.
Defined.

(** X8.  In every reachable state, [shutdown] on a motor that has a
    backend but is not in the registry raises [ValueError], the error of
    [list.remove], after the motor has been told to stop (on a serial
    backend the zero byte is written all the same); the registry, the
    objects and the counter are unchanged. *)
Theorem shutdown_unregistered (w : World) (self : ref) (m : Motor) :
  reachable w →
  heap w !! self = Some m →
  self ∉ motors w →
  has_serial m || has_pwm m = true →
  ∃ w', shutdown self w =
          (Raise (ValueError "list.remove(x): x not in list"), w') ∧
    registry w' = registry w ∧
    (has_serial m = true →
       ∃ ser, connection m = Some ser ∧
         wire w' = wire w ++ [(ser, 64 * motor_id m)]).
Proof.
  intros Hw H Hnot Hb. apply reachable_Inv in Hw.
  pose proof (Inv_drivable w self m Hw H Hb) as Hd.
  destruct (shutdown_drivable w self m H Hd) as (w' & E & Hm & Hh & Hc & _ & Hser & _).
  apply list_remove_None in Hnot. rewrite Hnot in E, Hm. cbn in Hm.
  exists w'. split; [exact E |]. split; [unfold registry; congruence |].
  intros Hs. destruct Hd as [[_ [ser Hcn]]|[Hs' _]]; [| congruence].
  assert (Hid : 0 <= motor_id m < 4).
  { destruct (inv_objects _ Hw _ _ H) as (Hid & _).
    pose proof (lookup_lt_Some _ _ _ H). pose proof (inv_count _ Hw).
    pose proof (inv_capacity _ Hw). lia. }
  exists ser. split; [exact Hcn |]. rewrite (Hser ser Hs Hcn), (zero_byte m Hid).
  reflexivity.
Qed.

Lemma shutdown_unregistered_witness :
  reachable (replay (four_motors ++ [Shutdown 0%nat]) init) ∧
  heap (replay (four_motors ++ [Shutdown 0%nat]) init) !! 0%nat = Some motor_a ∧
  (0%nat ∉ motors (replay (four_motors ++ [Shutdown 0%nat]) init)) ∧
  has_serial motor_a || has_pwm motor_a = true ∧
  fst (shutdown 0%nat (replay (four_motors ++ [Shutdown 0%nat]) init)) =
    Raise (ValueError "list.remove(x): x not in list").
Proof.
  assert (H1 : reachable (replay (four_motors ++ [Shutdown 0%nat]) init))
    by (apply reachable_scenario; vm_compute; reflexivity).
  assert (H2 : heap (replay (four_motors ++ [Shutdown 0%nat]) init) !! 0%nat
               = Some motor_a) by (vm_compute; reflexivity).
  assert (H3 : 0%nat ∉ motors (replay (four_motors ++ [Shutdown 0%nat]) init)).
  { apply list_remove_None. vm_compute. reflexivity. }
  assert (H4 : has_serial motor_a || has_pwm motor_a = true) by reflexivity.
  split; [exact H1 |]. split; [exact H2 |]. split; [exact H3 |]. split; [exact H4 |].
  destruct (shutdown_unregistered _ 0%nat motor_a H1 H2 H3 H4) as (w' & E & _).
  rewrite E. reflexivity.
Defined.

End ShutdownProperties.

(** ** Shutting all motors down *)

Section ShutdownAll.

Lemma shutdown_loop_end (fuel i : nat) (w : World) :
  motors w !! i = None → shutdown_loop fuel i w = (Return tt, w).
Proof. intros H. destruct fuel; cbn [shutdown_loop]; rewrite bind_gets, H; reflexivity. Qed.

(** The loop of [shutdown_all], started with the iterator after [pre]:
    of the motors at and after the iterator it shuts down the first, the
    third, and so on, and never visits the others. *)
Lemma shutdown_loop_unvisited (fuel : nat) (pre post : list ref) (w : World) :
  motors w = pre ++ post →
  NoDup (motors w) →
  (∀ r, r ∈ motors w → ∃ m, heap w !! r = Some m ∧ drivable m) →
  (length post ≤ fuel)%nat →
  ∃ w', shutdown_loop fuel (length pre) w = (Return tt, w') ∧
    motors w' = pre ++ unvisited post ∧
    heap w' = heap w ∧ _count w' = _count w ∧
    cleanups (gpio w') = cleanups (gpio w).
Proof.
  revert pre post w. induction fuel as [|fuel IH]; intros pre post w Hm Hnd Hd Hf.
  - destruct post; [| cbn in Hf; lia].
    exists w. rewrite shutdown_loop_end; [rewrite Hm; auto |].
    rewrite Hm, app_nil_r. apply lookup_ge_None. lia.
  - destruct post as [|x post].
    { exists w. rewrite shutdown_loop_end; [rewrite Hm; auto |].
      rewrite Hm, app_nil_r. apply lookup_ge_None. lia. }
    cbn [shutdown_loop]. rewrite bind_gets.
    assert (Hx : motors w !! length pre = Some x)
      by (rewrite Hm; apply list_lookup_middle; reflexivity).
    rewrite Hx.
    destruct (Hd x) as (m & Hh & Hdr).
    { rewrite Hm. apply elem_of_app. right. left. }
    destruct (shutdown_drivable w x m Hh Hdr) as (w1 & E & Hm1 & Hh1 & Hc1 & Hcl1 & _).
    assert (Hpre : x ∉ pre).
    { rewrite Hm in Hnd. apply NoDup_app in Hnd as (_ & Hdis & _).
      intros Hin. apply (Hdis x Hin). left. }
    rewrite Hm, (list_remove_middle x pre post Hpre) in E, Hm1. cbn in Hm1.
    unfold bind. rewrite E.
    assert (Hnd1 : NoDup (motors w1)).
    { rewrite Hm1. rewrite Hm in Hnd. apply NoDup_app in Hnd as (N1 & N2 & N3).
      apply NoDup_cons in N3 as [_ N3]. apply NoDup_app. split; [exact N1 |].
      split; [| exact N3]. intros y Hy Hy'. apply (N2 y Hy). right. exact Hy'. }
    assert (Hd1 : ∀ r, r ∈ motors w1 → ∃ m, heap w1 !! r = Some m ∧ drivable m).
    { intros r Hr. rewrite Hh1. apply Hd. rewrite Hm. rewrite Hm1 in Hr.
      apply elem_of_app in Hr as [Hr|Hr]; apply elem_of_app;
        [left; exact Hr | right; right; exact Hr]. }
    destruct post as [|y post].
    + exists w1. rewrite shutdown_loop_end.
      * rewrite Hm1. cbn. rewrite Hh1, Hc1, Hcl1. auto.
      * rewrite Hm1, app_nil_r. apply lookup_ge_None. lia.
    + assert (Hm1' : motors w1 = (pre ++ [y]) ++ post)
        by (rewrite Hm1, <- app_assoc; reflexivity).
      destruct (IH (pre ++ [y]) post w1 Hm1' Hnd1 Hd1) as (w' & E' & Hm' & Hh' & Hc' & Hcl').
      { cbn in Hf. lia. }
      rewrite length_app, Nat.add_1_r in E'. cbn [length] in E'.
      exists w'. split; [exact E' |].
      split; [rewrite Hm', <- app_assoc; reflexivity |].
      split; [congruence |]. split; congruence.
Qed.

Lemma unvisited_nil (l : list ref) : unvisited l = [] ↔ (length l ≤ 1)%nat.
Proof.
  destruct l as [|x [|y l]]; cbn; split; intros H; try reflexivity; try lia.
  discriminate.
Qed.

(** X9.  In every reachable state in which every registered motor has a
    backend, [shutdown_all] returns normally after one call of
    [gpio.cleanup()], but because its loop removes motors from the list
    it is iterating over, it shuts down only the first, third, ...
    registered motor: the second, fourth, ... stay registered, in order.
    The registry ends empty exactly when at most one motor was
    registered. *)
Theorem shutdown_all_unvisited (w : World) :
  reachable w →
  (∀ r m, r ∈ motors w → heap w !! r = Some m → has_serial m || has_pwm m = true) →
  ∃ w', shutdown_all w = (Return tt, w') ∧
    motors w' = unvisited (motors w) ∧
    cleanups (gpio w') = S (cleanups (gpio w)) ∧
    heap w' = heap w ∧ _count w' = _count w ∧
    (motors w' = [] ↔ (length (motors w) ≤ 1)%nat).
Proof.
  intros Hw Hb. apply reachable_Inv in Hw.
  assert (Hd : ∀ r, r ∈ motors w → ∃ m, heap w !! r = Some m ∧ drivable m).
  { intros r Hr. pose proof (inv_live _ Hw) as Hl. rewrite Forall_forall in Hl.
    destruct (lookup_lt_is_Some_2 _ _ (Hl r Hr)) as [m Hm].
    exists m. split; [exact Hm |]. eapply Inv_drivable; eauto. }
  set (w0 := with_log (λ rs, rs ++ [(INFO, "root", "Shutting down all motors.")]) w).
  destruct (shutdown_loop_unvisited (length (motors w0)) [] (motors w0) w0 eq_refl
              (inv_nodup _ Hw) Hd (le_n _)) as (w1 & E & Hm & Hh & Hc & Hcl).
  eexists. split.
  { unfold shutdown_all, logging. unfold bind at 1, modify at 1. fold w0.
    rewrite bind_gets. unfold bind at 1. cbn [length] in E. rewrite E.
    unfold gpio.cleanup, bind, modify. reflexivity. }
  cbn. rewrite Hm, Hh, Hc, Hcl. cbn.
  split; [reflexivity |]. split; [reflexivity |]. split; [reflexivity |].
  split; [reflexivity |]. apply unvisited_nil.
Qed.

Lemma shutdown_all_unvisited_witness :
  reachable (replay four_serial init) ∧
  (∀ r m, r ∈ motors (replay four_serial init) →
     heap (replay four_serial init) !! r = Some m →
     has_serial m || has_pwm m = true) ∧
  ∃ w', shutdown_all (replay four_serial init) = (Return tt, w') ∧
    motors w' = [1; 3]%nat.
Proof.
  assert (H1 : reachable (replay four_serial init))
    by (apply reachable_scenario; vm_compute; reflexivity).
  assert (H2 : ∀ r m, r ∈ motors (replay four_serial init) →
     heap (replay four_serial init) !! r = Some m →
     has_serial m || has_pwm m = true).
  { intros r m Hr Hm.
    assert (Hr' : r ∈ [0; 1; 2; 3]%nat) by exact Hr.
    repeat (apply elem_of_cons in Hr' as [->|Hr']);
      [.. | apply elem_of_nil in Hr'; contradiction];
      vm_compute in Hm; injection Hm as <-; reflexivity. }
  split; [exact H1 |]. split; [exact H2 |].
  destruct (shutdown_all_unvisited _ H1 H2) as (w' & E & Hm & _).
  exists w'. split; [exact E |]. rewrite Hm. vm_compute. reflexivity.
Defined.

(** X10.  When the first registered motor has no backend, [shutdown_all]
    raises the [NoDriversError] of that motor: no motor is deregistered
    and [gpio.cleanup()] is not called; the GPIO state and the serial link
    are as they were. *)
Theorem shutdown_all_no_drivers (w : World) (first : ref) (rest : list ref) (m : Motor) :
  motors w = first :: rest →
  heap w !! first = Some m →
  has_serial m = false →
  has_pwm m = false →
  ∃ w', shutdown_all w = (Raise (NoDriversError first), w') ∧
    motors w' = motors w ∧ heap w' = heap w ∧ _count w' = _count w ∧
    gpio w' = gpio w ∧ wire w' = wire w.
Proof.
  intros Hm H Hs Hp. eexists. split.
  - unfold shutdown_all, logging. unfold bind at 1, modify at 1.
    rewrite bind_gets. cbn [motors with_log]. rewrite Hm. cbn [length].
    unfold bind at 1. cbn [shutdown_loop]. rewrite bind_gets.
    cbn [motors with_log]. rewrite Hm. cbn [lookup list_lookup].
    unfold shutdown. py_unfold.
    repeat (first [rewrite H | rewrite Hs | rewrite Hp | progress cbn]). reflexivity.
  - cbn. auto 10.
Qed.

Lemma shutdown_all_no_drivers_witness :
  motors (replay bare init) = [0%nat] ∧
  heap (replay bare init) !! 0%nat = Some bare_motor ∧
  has_serial bare_motor = false ∧ has_pwm bare_motor = false ∧
  ∃ w', shutdown_all (replay bare init) = (Raise (NoDriversError 0%nat), w') ∧
    cleanups (gpio w') = 0%nat.
Proof.
  assert (H1 : motors (replay bare init) = [0%nat]) by (vm_compute; reflexivity).
  assert (H2 : heap (replay bare init) !! 0%nat = Some bare_motor)
    by (vm_compute; reflexivity).
  split; [exact H1 |]. split; [exact H2 |]. split; [reflexivity |]. split; [reflexivity |].
  destruct (shutdown_all_no_drivers (replay bare init) 0%nat [] bare_motor
              H1 H2 eq_refl eq_refl) as (w' & E & _ & _ & _ & Hg & _).
  exists w'. split; [exact E |]. rewrite Hg. vm_compute. reflexivity.
Defined.

End ShutdownAll.

(** ** Construction, identifiers and backends *)

Section Registry.

(** X11.  In every reachable state at most four [Motor] objects have ever
    been constructed and [Motor._count] is their number; the registry
    holds existing motors, each at most once; the identifier of a motor is
    the number of motors constructed before it, hence one of 0, 1, 2, 3,
    and no two motors share an identifier. *)
Theorem registry_bounds (w : World) :
  reachable w →
  _count w = Z.of_nat (length (heap w)) ∧
  (length (heap w) ≤ 4)%nat ∧
  (length (motors w) ≤ length (heap w))%nat ∧
  NoDup (motors w) ∧
  (∀ r, r ∈ motors w → is_Some (heap w !! r)) ∧
  (∀ r m, heap w !! r = Some m → motor_id m = Z.of_nat r ∧ 0 <= motor_id m <= 3) ∧
  (∀ r1 r2 m1 m2, heap w !! r1 = Some m1 → heap w !! r2 = Some m2 →
     motor_id m1 = motor_id m2 → r1 = r2).
Proof.
  intros Hw. apply reachable_Inv in Hw.
  pose proof (inv_count _ Hw) as Hc. pose proof (inv_capacity _ Hw) as Hcap.
  pose proof (Inv_motors_count _ Hw) as Hmc.
  split; [exact Hc |]. split; [lia |]. split; [lia |].
  split; [apply Hw |]. split; [| split].
  - intros r Hr. apply lookup_lt_is_Some_2.
    pose proof (inv_live _ Hw) as Hl. rewrite Forall_forall in Hl. apply Hl, Hr.
  - intros r m H. destruct (inv_objects _ Hw _ _ H) as (Hid & _).
    pose proof (lookup_lt_Some _ _ _ H). split; [exact Hid | lia].
  - intros r1 r2 m1 m2 H1 H2 E.
    destruct (inv_objects _ Hw _ _ H1) as (Hid1 & _).
    destruct (inv_objects _ Hw _ _ H2) as (Hid2 & _). lia.
Qed.

Lemma registry_bounds_witness :
  reachable (replay four_serial init) ∧
  (length (heap (replay four_serial init)) ≤ 4)%nat ∧
  NoDup (motors (replay four_serial init)).
Proof.
  assert (H1 : reachable (replay four_serial init))
    by (apply reachable_scenario; vm_compute; reflexivity).
  split; [exact H1 |].
  destruct (registry_bounds _ H1) as (_ & H4 & _ & Hnd & _).
  split; [exact H4 | exact Hnd].
Defined.




(** A row of drives through the serial backend: one byte per drive, all to
    the motor's port, and nothing else changes. *)
Lemma drives_serial (speeds : list Q) (w : World) (self : ref) (m : Motor) (ser : Serial) :
  heap w !! self = Some m → has_serial m = true → connection m = Some ser →
  let w' := replay (Drive self <$> speeds) w in
  heap w' = heap w ∧ motors w' = motors w ∧ _count w' = _count w ∧
  gpio w' = gpio w ∧
  ∃ sent, wire w' = wire w ++ sent ∧ length sent = length speeds ∧
    Forall (λ x, x.1 = ser) sent.
Proof.
  revert w. induction speeds as [|v speeds IH]; intros w H Hs Hc; cbv zeta.
  - cbn. split_and!; try reflexivity. exists []. rewrite app_nil_r. auto.
  - change (replay (Drive self <$> v :: speeds) w)
      with (replay (Drive self <$> speeds) (exec (drive self v) w)).
    unfold exec. rewrite (transmit_run w self m ser v H Hs Hc). cbn [snd].
    set (w2 := with_wire _ w).
    destruct (IH w2 H Hs Hc) as (Hh & Hm & Hcn & Hg & sent & Hw & Hl & Hf).
    subst w2. cbn [heap motors _count gpio wire with_wire] in Hh, Hm, Hcn, Hg, Hw.
    split_and!; try assumption.
    eexists (_ :: sent). rewrite Hw, <- app_assoc.
    split; [reflexivity |]. split; [cbn; lia |]. constructor; [reflexivity | exact Hf].
Qed.

(** X13.  [enable_serial] takes effect at once and replaces any earlier
    port: in every reachable state it returns normally on an existing
    motor, changing only that motor's connection and [has_serial] flag;
    and in any row of drives that follows, with speeds in [-1, 1], every
    [drive] returns normally after writing exactly one byte to the new
    port, whether or not PWM is enabled, leaving the GPIO state
    untouched. *)
Theorem enable_serial_then_drive (w : World) (self : ref) (m : Motor) (ser : Serial)
    (speeds : list Q) (speed : Q) :
  reachable w →
  heap w !! self = Some m →
  Forall (λ v, (-1 <= v <= 1)%Q) speeds →
  (-1 <= speed <= 1)%Q →
  let w1 := exec (enable_serial self ser) w in
  let wn := replay (Drive self <$> speeds) w1 in
  enable_serial self ser w = (Return tt, w1) ∧
  gpio w1 = gpio w ∧ wire w1 = wire w ∧ registry w1 = (<[self :=
    set_has_serial true (set_connection ser m)]> (heap w), motors w, _count w) ∧
  (∃ sent, wire wn = wire w ++ sent ∧ length sent = length speeds ∧
     Forall (λ x, x.1 = ser) sent) ∧
  gpio wn = gpio w ∧ registry wn = registry w1 ∧
  ∃ b, drive self speed wn = (Return tt, with_wire (λ bs, bs ++ [(ser, b)]) wn).
Proof.
  intros _ H _ _. cbv zeta. unfold exec.
  rewrite (enable_serial_run w self m ser H). cbn [snd].
  set (m1 := set_has_serial true (set_connection ser m)).
  set (w1 := with_heap (λ h, <[self := m1]> h) w).
  assert (H1 : heap w1 !! self = Some m1).
  { cbn. apply list_lookup_insert_eq. eapply lookup_lt_Some, H. }
  destruct (drives_serial speeds w1 self m1 ser H1 eq_refl eq_refl)
    as (Hh & Hm & Hcn & Hg & Hsent).
  split; [reflexivity |]. split; [reflexivity |]. split; [reflexivity |].
  split; [reflexivity |]. split; [exact Hsent |]. split; [exact Hg |].
  split; [unfold registry; congruence |].
  eexists. apply (transmit_run _ self m1 ser); [rewrite Hh; exact H1 | reflexivity ..].
Qed.

Lemma enable_serial_then_drive_witness :
  reachable (replay scenario_B init) ∧
  heap (replay scenario_B init) !! 0%nat = Some left_motor ∧
  Forall (λ v, (-1 <= v <= 1)%Q) [1 # 2; - (1 # 2)]%Q ∧
  (-1 <= 1 <= 1)%Q ∧
  length (wire (replay (Drive 0%nat <$> [1 # 2; - (1 # 2)]%Q)
                  (exec (enable_serial 0%nat 9%nat) (replay scenario_B init))))
    = 2%nat ∧
  ∃ b, wire (exec (drive 0%nat 1)
               (replay (Drive 0%nat <$> [1 # 2; - (1 # 2)]%Q)
                  (exec (enable_serial 0%nat 9%nat) (replay scenario_B init))))
         = [(9%nat, 14); (9%nat, 46); (9%nat, b)].
Proof.
  assert (H0 : reachable (replay scenario_B init))
    by (apply reachable_scenario; vm_compute; reflexivity).
  assert (H : heap (replay scenario_B init) !! 0%nat = Some left_motor)
    by (vm_compute; reflexivity).
  assert (Hf : Forall (λ v, (-1 <= v <= 1)%Q) [1 # 2; - (1 # 2)]%Q)
    by (repeat constructor; vm_compute; discriminate).
  assert (Hv : (-1 <= 1 <= 1)%Q) by (split; vm_compute; discriminate).
  split; [exact H0 |]. split; [exact H |]. split; [exact Hf |]. split; [exact Hv |].
  destruct (enable_serial_then_drive (replay scenario_B init) 0%nat left_motor 9%nat
              [1 # 2; - (1 # 2)]%Q 1 H0 H Hf Hv)
    as (_ & _ & _ & _ & (sent & Hw & Hl & _) & _ & _ & b & E).
  split; [vm_compute; reflexivity |].
  exists b. unfold exec at 1. rewrite E. vm_compute. reflexivity.
Defined.

End Registry.

(** ** Telling motors apart *)

Section Identity.

(** X14.  In every reachable state the bytes that two different motors
    send over their serial backends are never equal, whatever the two
    speeds in [-1, 1] and even on a shared port: each byte is between 0
    and 255 and its two top bits are the index of the sending motor in
    construction order. *)
Theorem serial_bytes_distinct (w : World) (r1 r2 : ref) (m1 m2 : Motor) (v1 v2 : Q) :
  reachable w →
  heap w !! r1 = Some m1 → has_serial m1 = true →
  heap w !! r2 = Some m2 → has_serial m2 = true →
  r1 ≠ r2 →
  (-1 <= v1 <= 1)%Q → (-1 <= v2 <= 1)%Q →
  ∃ s1 b1 s2 b2,
    wire (exec (drive r1 v1) w) = wire w ++ [(s1, b1)] ∧
    wire (exec (drive r2 v2) w) = wire w ++ [(s2, b2)] ∧
    0 <= b1 < 256 ∧ 0 <= b2 < 256 ∧
    Z.shiftr b1 6 = Z.of_nat r1 ∧ Z.shiftr b2 6 = Z.of_nat r2 ∧
    b1 ≠ b2.
Proof.
  intros Hw H1 Hs1 H2 Hs2 Hne Hv1 Hv2. apply reachable_Inv in Hw.
  assert (K : ∀ r m v, heap w !! r = Some m → has_serial m = true → (-1 <= v <= 1)%Q →
    ∃ s b, wire (exec (drive r v) w) = wire w ++ [(s, b)] ∧
      0 <= b < 256 ∧ Z.shiftr b 6 = Z.of_nat r).
  { intros r m v H Hs Hv.
    destruct (inv_objects _ Hw _ _ H) as (Hid & Hsi & Hms & Hser & _).
    destruct (Hser Hs) as [ser Hc].
    assert (Hrange : 0 <= motor_id m < 4).
    { pose proof (lookup_lt_Some _ _ _ H). pose proof (inv_count _ Hw).
      pose proof (inv_capacity _ Hw). lia. }
    pose proof (magnitude_range m v Hsi Hms Hv) as Hmag.
    assert (Hneg : 0 <= (if Py.lt v 0 then 1 else 0) < 2)
      by (destruct (Py.lt v 0); lia).
    destruct (as_byte_layout _ _ _ Hrange Hneg Hmag) as (_ & H6 & _).
    eexists ser, _. unfold exec. rewrite (transmit_run w r m ser v H Hs Hc). cbn.
    split; [reflexivity |]. split; [| rewrite H6; exact Hid].
    rewrite Z.shiftr_div_pow2 in H6 by lia. change (2 ^ 6) with 64 in H6.
    set (b := MotorPacket.as_byte _) in *.
    pose proof (Z.div_mod b 64 ltac:(lia)). pose proof (Z.mod_pos_bound b 64 ltac:(lia)).
    lia. }
  destruct (K r1 m1 v1 H1 Hs1 Hv1) as (s1 & b1 & E1 & R1 & I1).
  destruct (K r2 m2 v2 H2 Hs2 Hv2) as (s2 & b2 & E2 & R2 & I2).
  exists s1, b1, s2, b2. split_and!; try assumption; try lia.
  intros ->. rewrite I1 in I2. lia.
Qed.

Lemma serial_bytes_distinct_witness :
  reachable (replay scenario_C init) ∧
  ∃ s1 b1 s2 b2,
    wire (exec (drive 0%nat 1) (replay scenario_C init)) = [(s1, b1)] ∧
    wire (exec (drive 1%nat 1) (replay scenario_C init)) = [(s2, b2)] ∧
    b1 ≠ b2.
Proof.
  assert (H0 : reachable (replay scenario_C init))
    by (apply reachable_scenario; vm_compute; reflexivity).
  split; [exact H0 |].
  assert (H1 : heap (replay scenario_C init) !! 0%nat =
    Some (mkMotor "left" 0 1 2 3 default_start_input default_max_speed true false
            (Some 7%nat) None None None)) by (vm_compute; reflexivity).
  assert (H2 : heap (replay scenario_C init) !! 1%nat =
    Some (mkMotor "right" 1 4 5 6 default_start_input default_max_speed true false
            (Some 7%nat) None None None)) by (vm_compute; reflexivity).
  assert (Hv : (-1 <= 1 <= 1)%Q) by (split; vm_compute; discriminate).
  destruct (serial_bytes_distinct (replay scenario_C init) 0%nat 1%nat _ _ 1 1
              H0 H1 eq_refl H2 eq_refl ltac:(discriminate) Hv Hv)
    as (s1 & b1 & s2 & b2 & E1 & E2 & _ & _ & _ & _ & Hne).
  exists s1, b1, s2, b2. split; [exact E1 |]. split; [exact E2 | exact Hne].
Defined.

Lemma append_inj (s a b : string) : (s ++ a = s ++ b)%string → a = b.
Proof.
  induction s as [|c s IH]; cbn; intros H; [exact H |].
  injection H as H. exact (IH H).
Qed.

(** X15.  [str] of a motor is its name, and [repr] is the name followed
    by the identifier in parentheses; in every reachable state two
    different motors have different [repr]s even when they were given the
    same name. *)
Theorem repr_distinct (w : World) (r1 r2 : ref) (m1 m2 : Motor) :
  reachable w →
  heap w !! r1 = Some m1 →
  heap w !! r2 = Some m2 →
  r1 ≠ r2 →
  name m1 = name m2 →
  __str__ m1 = __str__ m2 ∧ __repr__ m1 ≠ __repr__ m2.
Proof.
  intros Hw H1 H2 Hne Hn. apply reachable_Inv in Hw.
  split; [exact Hn |].
  destruct (inv_objects _ Hw _ _ H1) as (Hid1 & _).
  destruct (inv_objects _ Hw _ _ H2) as (Hid2 & _).
  unfold __repr__. rewrite Hn. intros E.
  apply append_inj, (append_inj " (ID# ") in E.
  assert (B1 : (r1 < 4)%nat).
  { pose proof (lookup_lt_Some _ _ _ H1). pose proof (inv_count _ Hw).
    pose proof (inv_capacity _ Hw). lia. }
  assert (B2 : (r2 < 4)%nat).
  { pose proof (lookup_lt_Some _ _ _ H2). pose proof (inv_count _ Hw).
    pose proof (inv_capacity _ Hw). lia. }
  rewrite Hid1, Hid2 in E.
  destruct r1 as [|[|[|[|?]]]]; [| | | | lia];
    destruct r2 as [|[|[|[|?]]]]; try lia; try congruence;
    vm_compute in E; discriminate.
Qed.

Lemma repr_distinct_witness :
  reachable (replay [New "wheel" 1 2 3 default_start_input default_max_speed;
                     New "wheel" 4 5 6 default_start_input default_max_speed] init) ∧
  __repr__ (mkMotor "wheel" 0 1 2 3 default_start_input default_max_speed false false
              None None None None) = "wheel (ID# 0)" ∧
  __repr__ (mkMotor "wheel" 0 1 2 3 default_start_input default_max_speed false false
              None None None None) ≠
  __repr__ (mkMotor "wheel" 1 4 5 6 default_start_input default_max_speed false false
              None None None None).
Proof.
  assert (H0 : reachable
    (replay [New "wheel" 1 2 3 default_start_input default_max_speed;
             New "wheel" 4 5 6 default_start_input default_max_speed] init))
    by (apply reachable_scenario; vm_compute; reflexivity).
  split; [exact H0 |]. split; [vm_compute; reflexivity |].
  refine (proj2 (repr_distinct _ 0%nat 1%nat _ _ H0 _ _ _ _));
    first [vm_compute; reflexivity | discriminate].
Defined.

End Identity.

(** ** The counter only goes up *)

Section Counter.

(** X16.  No method call and no change of an input level ever decrements
    [Motor._count] or removes an object: over any event the counter stays
    or goes up by one, and it goes up exactly when the number of objects
    does.  In particular [shutdown] and [shutdown_all] leave it as it is,
    so the capacity of four holds for the lifetime of the process. *)
Theorem count_monotone (w : World) (e : event) :
  (∀ self, receiver e = Some self → (self < length (heap w))%nat) →
  (_count (run e w) = _count w ∧ length (heap (run e w)) = length (heap w)) ∨
  (_count (run e w) = _count w + 1 ∧ length (heap (run e w)) = S (length (heap w)) ∧
   ∃ n f1 f2 r s mx, e = New n f1 f2 r s mx).
Proof.
  intros Hr.
  assert (K : ∀ w', deregistered w w' →
    _count w' = _count w ∧ length (heap w') = length (heap w)).
  { intros w' (Hh & Hc & _). rewrite Hh. auto. }
  destruct e as [n f1 f2 r s mx|self p d f|self ser|self v|self|self| |self ch|ch v];
    cbn [run]; cbn in Hr.
  - destruct (init_run w n f1 f2 r s mx) as [[_ E]|[(_ & _ & E)|[(_ & _ & _ & E)|
      (_ & _ & _ & w' & E & Hh & _ & Hc)]]];
      unfold exec; rewrite E; cbn [snd]; auto.
    right. rewrite Hh, length_app, Nat.add_1_r. split; [exact Hc |].
    split; [reflexivity |]. eauto 10.
  - left. destruct (lookup_lt_is_Some_2 (heap w) self (Hr _ eq_refl)) as [m Hm].
    destruct (enable_pwm_run w self m p d f Hm) as (w' & E & Hh & _ & Hc).
    unfold exec. rewrite E. cbn [snd]. rewrite Hh, length_insert. auto.
  - left. destruct (lookup_lt_is_Some_2 (heap w) self (Hr _ eq_refl)) as [m Hm].
    unfold exec. rewrite (enable_serial_run w self m ser Hm). cbn.
    rewrite length_insert. auto.
  - left. apply K, keeps_deregisters, keeps_drive.
  - left. apply K, keeps_deregisters, keeps_reset_driver.
  - left. apply K, deregisters_shutdown.
  - left. apply K, deregisters_shutdown_all.
  - left. apply K, keeps_deregisters, keeps_catch_fault.
  - left. apply K, keeps_deregisters, keeps_set_input.
Qed.

Lemma count_monotone_witness :
  (∀ self, receiver (Shutdown 0%nat) = Some self →
     (self < length (heap (replay four_motors init)))%nat) ∧
  _count (run (Shutdown 0%nat) (replay four_motors init)) = 4.
Proof.
  assert (H : ∀ self, receiver (Shutdown 0%nat) = Some self →
     (self < length (heap (replay four_motors init)))%nat).
  { intros self E. injection E as <-. vm_compute. lia. }
  split; [exact H |].
  destruct (count_monotone (replay four_motors init) (Shutdown 0%nat) H)
    as [[E _]|(_ & _ & n & f1 & f2 & r & s & mx & E)]; [| discriminate].
  rewrite E. vm_compute. reflexivity.
Defined.

End Counter.
